(** * Food store: offline cache and synchronisation

    A shallow embedding of [frontend/src/store/foodStore.ts]: the zustand
    store holding the entries and the daily summary, the local cache with
    its two backends (the [localStorage] array on web, the
    [food_entries_cache] table of expo-sqlite on mobile) and the
    asynchronous actions [fetchEntries], [fetchSummary], [addEntry],
    [deleteEntry], [cacheEntry] and [syncOfflineEntries].
    [setSelectedDate], which starts two fetches without awaiting them, is
    left out. The auth store with the interceptors of the axios instance,
    and the two handlers of the food entry screen that call the store,
    follow in the modules [Auth] and [Screen].

    Conventions of the model.
    - A JavaScript [number] is a binary64 float ([PrimFloat.float], added
      with [PrimFloat.add]); a macro field of an entry holds a number or,
      once the entry went through JSON, possibly [null] ([JsNumber]);
      identifiers and millisecond timestamps are integers ([Z]).
    - The remote service, the wall clock and the [Date] built-ins are the
      environment [Env]: the remote answers are a function of the requests
      sent so far and of the request at hand, so every deterministic remote
      behaviour (failing, recovering, failing again) is an [Env].
    - An [async] action is a function from the world before to its outcome
      ([Ok] or a rejected promise [Err]) and the world after; the world is
      the store, the cache, the list of remote requests sent and the number
      of clock readings taken.
    - [localStorage] keeps the JSON text of the array: what is read back is
      what [JSON.parse] makes of what [JSON.stringify] wrote, so a macro
      value that is not finite comes back as [null] and minus zero as
      zero ([json_entry]).
    - The SQLite table is the list of its rows in ascending rowid order,
      with the AUTOINCREMENT counter of [sqlite_sequence]; rowids are
      unbounded integers. A [SELECT] scans in rowid order and an
      [ORDER BY] keeps that order among equal keys.
    - Local storage does not fail: [localStorage] has room and the
      database statements succeed. In particular no macro value bound to
      the table is [NaN] or [null], which SQLite would take for [NULL] and
      the [NOT NULL] columns refuse. *)

From Stdlib Require Import ZArith List String Bool Lia Permutation Sorted Ascii.
From Stdlib Require Import Floats.
Import ListNotations.
Local Open Scope string_scope.
Local Open Scope Z_scope.
Local Open Scope list_scope.

(** ** Data model *)

(** The value of a [number] field at run time: a number, or the [null]
    that [JSON.parse] reads where [JSON.stringify] met a number it cannot
    write. *)
Inductive JsNumber :=
| Number (x : float)
| Null.

Coercion Number : float >-> JsNumber.

(** [ToNumber], as [+] applies it to an operand: [null] counts as 0. *)
Definition ToNumber (n : JsNumber) : float :=
  match n with
  | Number x => x
  | Null => 0%float
  end.

(** [interface FoodEntry]. *)
Record FoodEntry := mkFoodEntry {
  id : Z;
  food_name : string;
  calories : JsNumber;
  protein : JsNumber;
  carbs : JsNumber;
  fats : JsNumber;
  serving_size : option string;
  image_url : option string;
  entry_date : string;
  created_at : string
}.

(** [Omit<FoodEntry, 'id' | 'created_at'>]: the argument of [addEntry] and
    [cacheEntry], and the body of [POST /food/entries]. *)
Module Draft.
Record t := mk {
  food_name : string;
  calories : JsNumber;
  protein : JsNumber;
  carbs : JsNumber;
  fats : JsNumber;
  serving_size : option string;
  image_url : option string;
  entry_date : string
}.
End Draft.

(** [interface MacroSummary]. *)
Module MacroSummary.
Record t := mk {
  date : string;
  calories : float;
  protein : float;
  carbs : float;
  fats : float;
  calorie_goal : float;
  protein_goal : float;
  carb_goal : float;
  fat_goal : float
}.
End MacroSummary.

(** The accumulator of the [reduce] in [fetchSummary]. *)
Module Totals.
Record t := mk {
  calories : float;
  protein : float;
  carbs : float;
  fats : float
}.
End Totals.

(** The zustand state (the actions are the definitions further down). *)
Record FoodState := mkFoodState {
  entries : list FoodEntry;
  summary : option MacroSummary.t;
  isLoading : bool;
  selectedDate : string
}.

(** A row of [food_entries_cache]: the columns of a [FoodEntry] and the
    [synced] flag. *)
Record Row := mkRow {
  row_entry : FoodEntry;
  synced : bool
}.

(** The table with its AUTOINCREMENT counter ([sqlite_sequence.seq]: the
    largest rowid the table ever held). *)
Record Table := mkTable {
  rows : list Row;
  seq : Z
}.

(** The JSON text of an array of entries, given by the array it was
    written from. What the text keeps of the array is what [JSON_parse],
    further down, reads from it. *)
Inductive JsonText :=
| JSON_stringify (entries : list FoodEntry).

(** The local cache. [isWeb] and [db] are module constants of the source:
    the platform is fixed, the contents change.
    - [WebCache item]: [isWeb], and [item] is the text [localStorage]
      holds under ['food_entries_cache'] (no item is the text of the
      empty array);
    - [SqliteCache t]: not web, [db] is open on the table [t];
    - [NoCache]: not web and [SQLite.openDatabase] is missing, [db] is
      [null]. *)
Inductive Cache :=
| WebCache (item : JsonText)
| SqliteCache (db : Table)
| NoCache.

(** What axios rejects with. *)
Inductive AxiosError :=
| NetworkError
| HttpError (status : Z).

Inductive result (A : Type) :=
| Ok (a : A)
| Err (e : AxiosError).
Arguments Ok {A} a.
Arguments Err {A} e.

(** The four remote calls of the store. *)
Inductive Request :=
| GetEntries (date : string)
| GetSummary (date : string)
| PostEntry (body : Draft.t)
| DeleteEntry (entry_id : Z).

(** The environment: the remote service as a function of the requests sent
    before, the successive readings of the wall clock in milliseconds,
    [Date.prototype.toISOString] and [new Date(s).getTime()] (on the
    timestamps of the entries, which parse). *)
Record Env := mkEnv {
  api_list : list Request -> string -> result (list FoodEntry);
  api_summary : list Request -> string -> result MacroSummary.t;
  api_create : list Request -> Draft.t -> result FoodEntry;
  api_delete : list Request -> Z -> result unit;
  wall_clock : nat -> Z;
  toISOString : Z -> string;
  getTime : string -> Z
}.

Record World := mkWorld {
  store : FoodState;
  cache : Cache;
  requests : list Request;
  clock_reads : nat
}.

(** ** The monad of the actions: state and rejection *)

Definition M (A : Type) : Type := World -> result A * World.

Definition ret {A} (a : A) : M A := fun w => (Ok a, w).

Definition bind {A B} (m : M A) (k : A -> M B) : M B :=
  fun w =>
    match m w with
    | (Ok a, w') => k a w'
    | (Err e, w') => (Err e, w')
    end.

Definition throw {A} (e : AxiosError) : M A := fun w => (Err e, w).

(** [try { body } catch (error) { handler }]. *)
Definition try_catch {A} (body : M A) (handler : AxiosError -> M A) : M A :=
  fun w =>
    match body w with
    | (Ok a, w') => (Ok a, w')
    | (Err e, w') => handler e w'
    end.

Declare Scope action_scope.
Delimit Scope action_scope with action.
Notation "x <- m ;; k" := (bind m (fun x => k))
  (at level 61, m at next level, right associativity) : action_scope.
Notation "m ;; k" := (bind m (fun _ => k))
  (at level 61, right associativity) : action_scope.
Local Open Scope action_scope.

(** [for (const x of xs) { await body(x) }]. *)
Fixpoint for_of {A} (xs : list A) (body : A -> M unit) : M unit :=
  match xs with
  | [] => ret tt
  | x :: rest => body x ;; for_of rest body
  end.

(** [get()] and [set(...)] of zustand. *)
Definition get : M FoodState := fun w => (Ok (store w), w).

Definition set (f : FoodState -> FoodState) : M unit :=
  fun w => (Ok tt, mkWorld (f (store w)) (cache w) (requests w) (clock_reads w)).

Definition get_cache : M Cache := fun w => (Ok (cache w), w).

Definition update_cache (f : Cache -> Cache) : M unit :=
  fun w => (Ok tt, mkWorld (store w) (f (cache w)) (requests w) (clock_reads w)).

Definition sent (r : Request) (w : World) : World :=
  mkWorld (store w) (cache w) (requests w ++ [r]) (clock_reads w).

(** One reading of the wall clock. *)
Definition Date_now (env : Env) : M Z :=
  fun w => (Ok (wall_clock env (clock_reads w)),
            mkWorld (store w) (cache w) (requests w) (S (clock_reads w))).

(** [api.get(`/food/entries?date=${date}`)] and the other three calls. *)
Definition api_get_entries (env : Env) (date : string) : M (list FoodEntry) :=
  fun w => (api_list env (requests w) date, sent (GetEntries date) w).

Definition api_get_summary (env : Env) (date : string) : M MacroSummary.t :=
  fun w => (api_summary env (requests w) date, sent (GetSummary date) w).

Definition api_post_entry (env : Env) (body : Draft.t) : M FoodEntry :=
  fun w => (api_create env (requests w) body, sent (PostEntry body) w).

Definition api_delete_entry (env : Env) (entry_id : Z) : M unit :=
  fun w => (api_delete env (requests w) entry_id, sent (DeleteEntry entry_id) w).

(** ** JavaScript and SQL helpers *)

(** [s || null] on an optional string: the empty string is falsy. *)
Definition or_null (s : option string) : option string :=
  match s with
  | Some v => if String.eqb v "" then None else Some v
  | None => None
  end.

(** [date || get().selectedDate]. *)
Definition or_selected (date : option string) (st : FoodState) : string :=
  match or_null date with
  | Some d => d
  | None => selectedDate st
  end.

(** [Array.prototype.findIndex], [None] for -1. *)
Fixpoint findIndex {A} (p : A -> bool) (l : list A) : option nat :=
  match l with
  | [] => None
  | x :: rest =>
      if p x then Some O
      else match findIndex p rest with
           | Some i => Some (S i)
           | None => None
           end
  end.

(** [l[index] = x]. The source assigns only at an index [findIndex] has
    just returned, which is inside the array. *)
Fixpoint assign {A} (index : nat) (x : A) (l : list A) : list A :=
  match l, index with
  | [], _ => []
  | _ :: rest, O => x :: rest
  | y :: rest, S i => y :: assign i x rest
  end.

(** A stable sort: [before x y] tells that [x] need not move behind [y]. *)
Fixpoint insert_sorted {A} (before : A -> A -> bool) (x : A) (l : list A) : list A :=
  match l with
  | [] => [x]
  | y :: rest => if before x y then x :: l else y :: insert_sorted before x rest
  end.

Definition stable_sort {A} (before : A -> A -> bool) (l : list A) : list A :=
  fold_right (insert_sorted before) [] l.

(** [INSERT OR REPLACE] of a row with an explicit rowid, in rowid order. *)
Fixpoint upsert_row (r : Row) (l : list Row) : list Row :=
  match l with
  | [] => [r]
  | x :: rest =>
      if id (row_entry r) <? id (row_entry x) then r :: l
      else if id (row_entry r) =? id (row_entry x) then r :: rest
      else x :: upsert_row r rest
  end.

Definition insert_or_replace (r : Row) (t : Table) : Table :=
  mkTable (upsert_row r (rows t)) (Z.max (seq t) (id (row_entry r))).

(** The rowid AUTOINCREMENT gives to an [INSERT] without [id]: one more
    than the largest rowid the table holds or ever held. *)
Definition next_rowid (t : Table) : Z :=
  fold_left Z.max (map (fun r => id (row_entry r)) (rows t)) (seq t) + 1.

(** [UPDATE food_entries_cache SET synced = 1 WHERE id = ?]. *)
Definition mark_synced (entry_id : Z) (t : Table) : Table :=
  mkTable
    (map (fun r => if id (row_entry r) =? entry_id then mkRow (row_entry r) true else r)
         (rows t))
    (seq t).

(** ** The cache helpers of the source *)

Definition isWeb (c : Cache) : bool :=
  match c with
  | WebCache _ => true
  | _ => false
  end.

(** [JSON.parse(JSON.stringify(n))] on a number field: a finite number is
    written with digits that read back as the same number, except that
    minus zero is written [0]; [NaN] and the infinities are written
    [null], and [null] stays [null]. *)
Definition json_number (n : JsNumber) : JsNumber :=
  match n with
  | Number x =>
      if PrimFloat.is_finite x then
        if PrimFloat.is_zero x then Number 0%float else Number x
      else Null
  | Null => Null
  end.

(** [JSON.parse(JSON.stringify(e))] on an entry: the identifier and the
    strings come back as written, an absent optional field stays
    absent. *)
Definition json_entry (e : FoodEntry) : FoodEntry :=
  mkFoodEntry (id e) (food_name e) (json_number (calories e))
    (json_number (protein e)) (json_number (carbs e)) (json_number (fats e))
    (serving_size e) (image_url e) (entry_date e) (created_at e).

(** [JSON.parse] of the text of an array of entries. *)
Definition JSON_parse (text : JsonText) : list FoodEntry :=
  match text with
  | JSON_stringify entries => map json_entry entries
  end.

Definition getWebCache (c : Cache) : list FoodEntry :=
  match c with
  | WebCache item => JSON_parse item
  | _ => []
  end.

Definition saveWebCache (entries : list FoodEntry) (c : Cache) : Cache :=
  match c with
  | WebCache _ => WebCache (JSON_stringify entries)
  | _ => c
  end.

(** The values bound by the [INSERT OR REPLACE] of [cacheEntryLocally]. *)
Definition stored (entry : FoodEntry) : FoodEntry :=
  mkFoodEntry (id entry) (food_name entry) (calories entry) (protein entry)
    (carbs entry) (fats entry) (or_null (serving_size entry))
    (or_null (image_url entry)) (entry_date entry) (created_at entry).

Definition cacheEntryLocally_cache (entry : FoodEntry) (c : Cache) : Cache :=
  if isWeb c then
    let items := getWebCache c in
    match findIndex (fun e => id e =? id entry) items with
    | Some index => saveWebCache (assign index entry items) c
    | None => saveWebCache (items ++ [entry]) c
    end
  else
    match c with
    | SqliteCache db => SqliteCache (insert_or_replace (mkRow (stored entry) true) db)
    | _ => c
    end.

Definition cacheEntryLocally (entry : FoodEntry) : M unit :=
  update_cache (cacheEntryLocally_cache entry).

(** [getCachedEntries]: the web comparator is
    [new Date(b.created_at).getTime() - new Date(a.created_at).getTime()],
    the SQL order is [created_at DESC] on the text. The rows read from
    SQLite are used as entries. *)
Definition getCachedEntries_cache (env : Env) (date : string) (c : Cache) : list FoodEntry :=
  if isWeb c then
    stable_sort (fun a b => getTime env (created_at b) - getTime env (created_at a) <=? 0)
      (filter (fun e => String.eqb (entry_date e) date) (getWebCache c))
  else
    match c with
    | SqliteCache db =>
        stable_sort (fun a b => String.leb (created_at b) (created_at a))
          (filter (fun e => String.eqb (entry_date e) date) (map row_entry (rows db)))
    | _ => []
    end.

Definition getCachedEntries (env : Env) (date : string) : M (list FoodEntry) :=
  c <- get_cache ;; ret (getCachedEntries_cache env date c).

(** ** The actions of the store *)

Section Actions.

Variable env : Env.

(** [set({ entries: ..., isLoading: false })] and the other partial
    updates. *)
Definition with_isLoading (b : bool) (s : FoodState) : FoodState :=
  mkFoodState (entries s) (summary s) b (selectedDate s).

Definition with_entries_loaded (es : list FoodEntry) (s : FoodState) : FoodState :=
  mkFoodState es (summary s) false (selectedDate s).

Definition with_entries (es : list FoodEntry) (s : FoodState) : FoodState :=
  mkFoodState es (summary s) (isLoading s) (selectedDate s).

Definition with_summary (m : MacroSummary.t) (s : FoodState) : FoodState :=
  mkFoodState (entries s) (Some m) (isLoading s) (selectedDate s).

Definition fetchEntries (date : option string) : M unit :=
  st <- get ;;
  let targetDate := or_selected date st in
  set (with_isLoading true) ;;
  try_catch
    (response <- api_get_entries env targetDate ;;
     set (with_entries_loaded response) ;;
     for_of response cacheEntryLocally)
    (fun _ =>
       cachedEntries <- getCachedEntries env targetDate ;;
       set (with_entries_loaded cachedEntries)).

(** The [reduce] of the fallback branch of [fetchSummary]. *)
Definition add_entry_totals (acc : Totals.t) (entry : FoodEntry) : Totals.t :=
  Totals.mk (Totals.calories acc + ToNumber (calories entry))%float
            (Totals.protein acc + ToNumber (protein entry))%float
            (Totals.carbs acc + ToNumber (carbs entry))%float
            (Totals.fats acc + ToNumber (fats entry))%float.

Definition local_totals (es : list FoodEntry) : Totals.t :=
  fold_left add_entry_totals es (Totals.mk 0%float 0%float 0%float 0%float).

Definition local_summary (targetDate : string) (totals : Totals.t) : MacroSummary.t :=
  MacroSummary.mk targetDate
    (Totals.calories totals) (Totals.protein totals)
    (Totals.carbs totals) (Totals.fats totals)
    2000%float 150%float 200%float 65%float.

Definition fetchSummary (date : option string) : M unit :=
  st <- get ;;
  let targetDate := or_selected date st in
  try_catch
    (response <- api_get_summary env targetDate ;;
     set (with_summary response))
    (fun _ =>
       st' <- get ;;
       let totals := local_totals (entries st') in
       set (with_summary (local_summary targetDate totals))).

(** [{ id: Date.now(), ...entry, created_at: now }]. *)
Definition entryToCache (entry_id : Z) (entry : Draft.t) (now : string) : FoodEntry :=
  mkFoodEntry entry_id (Draft.food_name entry) (Draft.calories entry)
    (Draft.protein entry) (Draft.carbs entry) (Draft.fats entry)
    (Draft.serving_size entry) (Draft.image_url entry) (Draft.entry_date entry) now.

(** The [INSERT] of [cacheEntry]: no [id] column, [synced] is 0. *)
Definition insert_unsynced (e : FoodEntry) (t : Table) : Table :=
  let rowid := next_rowid t in
  mkTable
    (upsert_row
       (mkRow (mkFoodEntry rowid (food_name e) (calories e) (protein e) (carbs e)
                 (fats e) (or_null (serving_size e)) (or_null (image_url e))
                 (entry_date e) (created_at e))
              false)
       (rows t))
    rowid.

Definition cacheEntry_cache (e : FoodEntry) (c : Cache) : Cache :=
  if isWeb c then
    saveWebCache (getWebCache c ++ [e]) c
  else
    match c with
    | SqliteCache db => SqliteCache (insert_unsynced e db)
    | _ => c
    end.

Definition cacheEntry (entry : Draft.t) : M unit :=
  t <- Date_now env ;;
  let now := toISOString env t in
  temp_id <- Date_now env ;;
  update_cache (cacheEntry_cache (entryToCache temp_id entry now)).

Definition addEntry (entry : Draft.t) : M unit :=
  try_catch
    (newEntry <- api_post_entry env entry ;;
     set (fun s => with_entries (newEntry :: entries s) s) ;;
     fetchSummary None ;;
     cacheEntryLocally newEntry)
    (fun error =>
       cacheEntry entry ;;
       throw error).

Definition deleteEntry (entry_id : Z) : M unit :=
  try_catch
    (api_delete_entry env entry_id ;;
     set (fun s => with_entries
                     (filter (fun entry => negb (id entry =? entry_id)) (entries s)) s) ;;
     fetchSummary None)
    (fun error => throw error).

(** The rows [syncOfflineEntries] takes for unsynced. On web:
    [!e.id || e.id < 1000000000000]. *)
Definition select_unsynced (c : Cache) : list FoodEntry :=
  if isWeb c then
    filter (fun e => (id e =? 0) || (id e <? 1000000000000)) (getWebCache c)
  else
    match c with
    | SqliteCache db => map row_entry (filter (fun r => negb (synced r)) (rows db))
    | _ => []
    end.

(** The body of the [POST] sent for an unsynced row. *)
Definition sync_body (entry : FoodEntry) : Draft.t :=
  Draft.mk (food_name entry) (calories entry) (protein entry) (carbs entry)
    (fats entry) (serving_size entry) (image_url entry) (entry_date entry).

(** After a successful [POST]: the web array gets [response.data] at the
    index of the row, the SQLite row is marked synced. *)
Definition confirm_cache (entry response : FoodEntry) (c : Cache) : Cache :=
  if isWeb c then
    let items := getWebCache c in
    match findIndex (fun e => id e =? id entry) items with
    | Some index => saveWebCache (assign index response items) c
    | None => saveWebCache items c
    end
  else
    match c with
    | SqliteCache db => SqliteCache (mark_synced (id entry) db)
    | _ => c
    end.

(** One turn of the loop, with its own [try]/[catch]. *)
Definition sync_entry (entry : FoodEntry) : M unit :=
  try_catch
    (response <- api_post_entry env (sync_body entry) ;;
     update_cache (confirm_cache entry response))
    (fun _ => ret tt).

(** [for (const entry of unsynced) { ... }]. *)
Definition sync_loop (unsynced : list FoodEntry) : M unit :=
  for_of unsynced sync_entry.

Definition syncOfflineEntries : M unit :=
  try_catch
    (c <- get_cache ;;
     let unsynced := select_unsynced c in
     sync_loop unsynced ;;
     fetchEntries None ;;
     fetchSummary None)
    (fun _ => ret tt).

End Actions.


(** ** Views of a run and of the cache *)

Definition outcome {A} (p : result A * World) : result A := fst p.
Definition world_after {A} (p : result A * World) : World := snd p.

(** The entries the cache holds, whatever the backend, as a read gives
    them. *)
Definition cache_entries (c : Cache) : list FoodEntry :=
  match c with
  | WebCache _ => getWebCache c
  | SqliteCache db => map row_entry (rows db)
  | NoCache => []
  end.

(** Identifiers are unique in the cache: the PRIMARY KEY of the table, and
    on web what [cacheEntryLocally] maintains by its [findIndex]. *)
Definition ids_unique (c : Cache) : Prop := NoDup (map id (cache_entries c)).

Definition on_date (date : string) (e : FoodEntry) : bool :=
  String.eqb (entry_date e) date.

Definition post_of (e : FoodEntry) : Request := PostEntry (sync_body e).

(** The web branch of [cacheEntryLocally] on the array itself. *)
Definition web_upsert (entry : FoodEntry) (items : list FoodEntry) : list FoodEntry :=
  match findIndex (fun e => id e =? id entry) items with
  | Some index => assign index entry items
  | None => items ++ [entry]
  end.

(** The row [cacheEntryLocally] writes for an entry. *)
Definition synced_row (entry : FoodEntry) : Row := mkRow (stored entry) true.

(** The row [cacheEntry] inserts for the entry it built, under the rowid
    the table assigns. *)
Definition unsynced_row (rowid : Z) (e : FoodEntry) : Row :=
  mkRow (mkFoodEntry rowid (food_name e) (calories e) (protein e) (carbs e)
           (fats e) (or_null (serving_size e)) (or_null (image_url e))
           (entry_date e) (created_at e))
        false.

(** The sum of one macro over a list of entries, as [reduce] adds it. *)
Definition sum_of (field : FoodEntry -> JsNumber) (es : list FoodEntry) : float :=
  fold_left (fun acc e => (acc + ToNumber (field e))%float) es 0%float.

(** ** Scenarios: a device, a remote, three drafts *)

Definition day : string := "2024-05-01".
Definition noon : Z := 1714564800000.

Definition oatmeal : Draft.t :=
  Draft.mk "oatmeal" 300%float 10%float 54%float 5%float (Some "1 bowl") None day.

Definition yogurt : Draft.t :=
  Draft.mk "yogurt" 250%float 20%float 30%float 4%float None None day.

Definition banana : Draft.t :=
  Draft.mk "banana" 105%float 1%float 27%float 0%float (Some "1 medium") None day.

(** A draft whose calories are [Infinity], as [parseFloat] reads the text
    ['Infinity']. *)
Definition feast : Draft.t :=
  Draft.mk "feast" PrimFloat.infinity 10%float 54%float 5%float None None day.

Definition next_day : string := "2024-05-02".

(** What the remote returns for an accepted create: the draft under a
    server identifier, stamped by the server. *)
Definition server_entry (n : Z) (d : Draft.t) : FoodEntry :=
  mkFoodEntry n (Draft.food_name d) (Draft.calories d) (Draft.protein d)
    (Draft.carbs d) (Draft.fats d) (Draft.serving_size d) (Draft.image_url d)
    (Draft.entry_date d) "2024-05-01T12:00:30".

Definition is_post (r : Request) : bool :=
  match r with
  | PostEntry _ => true
  | _ => false
  end.

Definition posts_sent (sent : list Request) : nat :=
  List.length (filter is_post sent).

(** A remote that rejects its k-th create when [fails] says so at k (and
    accepts the creates beyond the script), numbering the entries from
    [first_id] by the count of creates received. *)
Definition scripted_create (fails : list bool) (first_id : Z)
    (sent : list Request) (body : Draft.t) : result FoodEntry :=
  if nth (posts_sent sent) fails false then Err NetworkError
  else Ok (server_entry (first_id + Z.of_nat (posts_sent sent)) body).

(** The clock of the device: two readings per call of [cacheEntry], four
    seconds from one call to the next. *)
Definition device_clock (n : nat) : Z :=
  noon + 4000 * Z.of_nat (Nat.div n 2).

Definition iso (t : Z) : string :=
  if t =? noon then "2024-05-01T12:00:00.000Z"
  else if t =? noon + 4000 then "2024-05-01T12:00:04.000Z"
  else if t =? noon + 8000 then "2024-05-01T12:00:08.000Z"
  else "".

Definition parse (s : string) : Z :=
  if String.eqb s "2024-05-01T12:00:00.000Z" then noon
  else if String.eqb s "2024-05-01T12:00:04.000Z" then noon + 4000
  else if String.eqb s "2024-05-01T12:00:08.000Z" then noon + 8000
  else if String.eqb s "2024-05-01T12:00:30" then noon + 30000
  else 0.

Definition remote (fails : list bool) (first_id : Z)
    (listing : list Request -> string -> result (list FoodEntry))
    (summaries : list Request -> string -> result MacroSummary.t)
    (deletes : list Request -> Z -> result unit) : Env :=
  mkEnv listing summaries (scripted_create fails first_id) deletes
    device_clock iso parse.

Definition unreachable {A B C} : A -> B -> result C := fun _ _ => Err NetworkError.

Definition fresh_store : FoodState := mkFoodState [] None false day.
Definition web_start : World :=
  mkWorld fresh_store (WebCache (JSON_stringify [])) [] 0.
Definition sqlite_start : World :=
  mkWorld fresh_store (SqliteCache (mkTable [] 0)) [] 0.

(** A device that is not web and has no database. *)
Definition native_start : World := mkWorld fresh_store NoCache [] 0.

(** The device is offline: every call fails. *)
Definition offline : Env := remote [true; true; true] 1 unreachable unreachable unreachable.

(** Two entries of the day on the server, created from another device. *)
Definition two_listed : list FoodEntry := [server_entry 7 yogurt; server_entry 8 banana].


(** The first create fails, everything after it works; the list of the day
    is then the entry the server made of the retried create. *)
Definition recovers_after_one : Env :=
  remote [true] 40 (fun _ _ => Ok [server_entry 41 oatmeal]) unreachable
    (fun _ _ => Err (HttpError 404)).

(** The first create is accepted as entry 7, the second fails, the later
    ones are accepted; reads fail; deletes are accepted. *)
Definition accepts_then_fails_once : Env :=
  remote [false; true] 7 unreachable unreachable (fun _ _ => Ok tt).

(** Two creates fail, the later ones are accepted. *)
Definition recovers_after_two : Env :=
  remote [true; true] 40 unreachable unreachable unreachable.

(** Three creates fail; of the next three the second fails again. *)
Definition second_retry_fails : Env :=
  remote [true; true; true; false; true; false] 40 unreachable unreachable unreachable.

(** The summary is served once, with goals of the user, then fails. *)
Definition remote_summary : MacroSummary.t :=
  MacroSummary.mk day 550%float 30%float 84%float 9%float
    2500%float 180%float 300%float 80%float.

Definition summary_once : Env :=
  remote [] 1 (fun _ _ => Ok [server_entry 1 oatmeal; server_entry 2 yogurt])
    (fun sent _ => match sent with
                   | [] => Ok remote_summary
                   | _ :: _ => Err NetworkError
                   end)
    unreachable.

(** Three creates fail; of the next three the second fails again, and the
    server, empty until then, numbers what it accepts 1 and 2 and lists
    it. *)
Definition numbers_from_one : Env :=
  mkEnv (fun _ _ => Ok [server_entry 1 oatmeal; server_entry 2 banana])
    unreachable
    (fun sent body =>
       match posts_sent sent with
       | 3%nat => Ok (server_entry 1 body)
       | 5%nat => Ok (server_entry 2 body)
       | _ => Err NetworkError
       end)
    unreachable device_clock iso parse.

(** The first create fails; the list of the day is the two entries made
    from the other device. *)
Definition offline_then_listed : Env :=
  remote [true] 1 (fun _ _ => Ok two_listed) unreachable unreachable.

(** The world after an action, for chaining. *)
Definition after (m : M unit) (w : World) : World := snd (m w).

(** The row [cacheEntry] leaves in the table for a draft, as an entry. *)
Definition queued (rowid : Z) (d : Draft.t) (now : string) : FoodEntry :=
  mkFoodEntry rowid (Draft.food_name d) (Draft.calories d) (Draft.protein d)
    (Draft.carbs d) (Draft.fats d) (or_null (Draft.serving_size d))
    (or_null (Draft.image_url d)) (Draft.entry_date d) now.

(** The table after one [addEntry] that failed on an empty table. *)
Definition one_queued : Table :=
  mkTable [mkRow (queued 1 oatmeal "2024-05-01T12:00:00.000Z") false] 1.

(** The worlds the scenarios start from, each made by the actions
    themselves. *)

(** One [addEntry] failed: one entry is queued. *)
Definition queued_offline : World := after (addEntry offline oatmeal) sqlite_start.

(** The same device with the next day selected: the entry queued the day
    before is in the table. *)
Definition queued_next_day : World :=
  mkWorld (mkFoodState [] None false next_day) (cache queued_offline)
    (requests queued_offline) (clock_reads queued_offline).

Definition queued_then_listed : World :=
  after (addEntry offline_then_listed oatmeal) sqlite_start.

Definition queued_then_listed_web : World :=
  after (addEntry offline_then_listed oatmeal) web_start.

Definition queued_before_recovery : World :=
  after (addEntry recovers_after_one oatmeal) sqlite_start.


(** Oatmeal went through as entry 7, on each backend. *)
Definition confirmed_sqlite : World :=
  after (addEntry accepts_then_fails_once oatmeal) sqlite_start.

Definition confirmed_web : World :=
  after (addEntry accepts_then_fails_once oatmeal) web_start.

(** Then yogurt was queued offline, on web. *)
Definition confirmed_and_queued_web : World :=
  after (addEntry accepts_then_fails_once yogurt) confirmed_web.

(** The same draft queued twice offline, on each backend. *)
Definition queued_twice_web : World :=
  after (addEntry recovers_after_two oatmeal)
    (after (addEntry recovers_after_two oatmeal) web_start).

Definition queued_twice_sqlite : World :=
  after (addEntry recovers_after_two oatmeal)
    (after (addEntry recovers_after_two oatmeal) sqlite_start).

(** Three drafts queued offline. *)
Definition three_queued : World :=
  after (addEntry second_retry_fails banana)
    (after (addEntry second_retry_fails yogurt)
       (after (addEntry second_retry_fails oatmeal) sqlite_start)).

Definition three_queued_empty_server : World :=
  after (addEntry numbers_from_one banana)
    (after (addEntry numbers_from_one yogurt)
       (after (addEntry numbers_from_one oatmeal) sqlite_start)).

(** The summary and the entries of the day were fetched once. *)
Definition summary_fetched : World :=
  after (fetchSummary summary_once (Some day)) web_start.

Definition entries_fetched : World :=
  after (fetchEntries summary_once (Some day)) web_start.

(** The table of a SQLite world, as identifiers and flags, and as
    identifiers and names. *)
Definition flags (w : World) : list (Z * bool) :=
  match cache w with
  | SqliteCache db => map (fun r => (id (row_entry r), synced r)) (rows db)
  | _ => []
  end.

Definition names (w : World) : list (Z * string) :=
  match cache w with
  | SqliteCache db => map (fun r => (id (row_entry r), food_name (row_entry r))) (rows db)
  | _ => []
  end.

(** ** Well-formed tables and views for the properties of the store *)

Definition rowid (r : Row) : Z := id (row_entry r).

(** The table as SQLite keeps it: rows in strictly ascending rowid order
    (the PRIMARY KEY) and a counter no rowid exceeds. *)
Definition table_ok (t : Table) : Prop :=
  StronglySorted (fun a b => rowid a < rowid b) (rows t) /\
  Forall (fun r => rowid r <= seq t) (rows t).

Definition cache_ok (c : Cache) : Prop :=
  match c with
  | SqliteCache t => table_ok t
  | _ => True
  end.

(** An entry as the cache gives it back: the SQLite columns hold [NULL]
    for an empty optional string, the JSON text of the web cache holds
    [null] for a macro value that is not finite. *)
Definition as_cached (c : Cache) (e : FoodEntry) : FoodEntry :=
  match c with
  | WebCache _ => json_entry e
  | SqliteCache _ => stored e
  | NoCache => e
  end.

(** A number field that holds a number other than [NaN]. *)
Definition is_a_number (n : JsNumber) : bool :=
  match n with
  | Number x => negb (PrimFloat.is_nan x)
  | Null => false
  end.

(** A macro value as the cache gives it back. *)
Definition kept_number (c : Cache) (n : JsNumber) : JsNumber :=
  match c with
  | WebCache _ => json_number n
  | _ => n
  end.

(** The order of [getCachedEntries]: [a] may stand before [b]. *)
Definition newest_first (env : Env) (c : Cache) (a b : FoodEntry) : Prop :=
  if isWeb c then getTime env (created_at b) <= getTime env (created_at a)
  else String.leb (created_at b) (created_at a) = true.

(** The entry [cacheEntry] leaves in the cache for a draft, as a read
    gives it back, given the two clock readings it takes. *)
Definition queued_entry (env : Env) (c : Cache) (reads : nat) (d : Draft.t) : FoodEntry :=
  let e := entryToCache (wall_clock env (S reads)) d
             (toISOString env (wall_clock env reads)) in
  match c with
  | WebCache _ => json_entry e
  | SqliteCache db => row_entry (unsynced_row (next_rowid db) e)
  | NoCache => e
  end.

(** ** The auth store, the token storage and the interceptors

    [frontend/src/store/authStore.ts] with what it goes through: the
    storage of [utils/storage.ts], reduced to the one item ['auth_token']
    the code keeps in it, and the two interceptors of [config/api.ts]. The
    remote answers are a function of the requests sent before and of the
    [Authorization] header of the request at hand. A [detail] of an error
    response is a string when it is there.

    [getStorage] returns, on web, an object with [getItem], [setItem] and
    [deleteItem] over [localStorage]; on mobile it returns the
    expo-secure-store module as it is. That module is not part of the
    repository. Of its interface the model takes that it has [getItem]
    and [setItem], which read and write the key store, and that it has no
    [deleteItem] (it removes a key with [deleteItemAsync]): on mobile the
    call [storage.deleteItem(...)] throws the TypeError of the engine for
    calling what is not a function, and the key store is not touched. *)
Module Auth.

(** [Platform.OS === 'web'], or not. *)
Inductive Platform :=
| Web
| Mobile.

Record User := mkUser {
  id : string;
  email : string;
  name : option string
}.

Record AuthState := mkAuthState {
  user : option User;
  isAuthenticated : bool;
  isLoading : bool
}.

(** [error.response]: the status and [data.detail]. *)
Record HttpResponse := mkHttpResponse {
  status : Z;
  detail : option string
}.

(** What is thrown: an [Error] has a message; an axios error has in
    addition the response, when the server answered. *)
Record JsError := mkJsError {
  message : string;
  response : option HttpResponse
}.

Definition new_Error (msg : string) : JsError := mkJsError msg None.

Inductive result (A : Type) :=
| Ok (a : A)
| Err (e : JsError).
Arguments Ok {A} a.
Arguments Err {A} e.

(** [response.data] of [POST /auth/login]. *)
Record LoginData := mkLoginData {
  access_token : string;
  login_user : User
}.

Inductive Call :=
| PostLogin (email password : string)
| PostRegister (email password name : string)
| GetMe.

(** A request as the remote sees it: the call and the bearer token the
    request interceptor put in the [Authorization] header. *)
Record Request := mkRequest {
  call : Call;
  bearer : option string
}.

(** The environment: the platform, the remote, and the message the
    engine gives the TypeError of a call to what is not a function. *)
Record Env := mkEnv {
  platform : Platform;
  api_login : list Request -> Request -> result LoginData;
  api_register : list Request -> Request -> result unit;
  api_me : list Request -> Request -> result User;
  not_a_function : string
}.

Record World := mkWorld {
  state : AuthState;
  auth_token : option string;
  requests : list Request
}.

Definition M (A : Type) : Type := World -> result A * World.

Definition ret {A} (a : A) : M A := fun w => (Ok a, w).

Definition bind {A B} (m : M A) (k : A -> M B) : M B :=
  fun w =>
    match m w with
    | (Ok a, w') => k a w'
    | (Err e, w') => (Err e, w')
    end.

Definition throw {A} (e : JsError) : M A := fun w => (Err e, w).

Definition try_catch {A} (body : M A) (handler : JsError -> M A) : M A :=
  fun w =>
    match body w with
    | (Ok a, w') => (Ok a, w')
    | (Err e, w') => handler e w'
    end.

Declare Scope auth_scope.
Delimit Scope auth_scope with auth.
Notation "x <- m ;; k" := (bind m (fun x => k))
  (at level 61, m at next level, right associativity) : auth_scope.
Notation "m ;; k" := (bind m (fun _ => k))
  (at level 61, right associativity) : auth_scope.
Local Open Scope auth_scope.

(** [set({...})] of zustand. *)
Definition set (f : AuthState -> AuthState) : M unit :=
  fun w => (Ok tt, mkWorld (f (state w)) (auth_token w) (requests w)).

(** [storage.getItem] and [storage.setItem] on ['auth_token']. *)
Definition getItem : M (option string) := fun w => (Ok (auth_token w), w).

Definition setItem (v : string) : M unit :=
  fun w => (Ok tt, mkWorld (state w) (Some v) (requests w)).

(** [storage.deleteItem('auth_token')]: [localStorage.removeItem] on web;
    on mobile the storage has no such function and the call throws. *)
Definition deleteItem (env : Env) : M unit :=
  fun w =>
    match platform env with
    | Web => (Ok tt, mkWorld (state w) None (requests w))
    | Mobile => (Err (new_Error (not_a_function env)), w)
    end.

(** A string or nothing taken as a condition: nothing and the empty
    string are falsy. *)
Definition truthy (s : option string) : option string :=
  match s with
  | Some v => if String.eqb v "" then None else Some v
  | None => None
  end.

(** [a || b] on strings. *)
Definition or_else (a : option string) (b : string) : string :=
  match truthy a with
  | Some v => v
  | None => b
  end.

(** [error.response?.data?.detail]. *)
Definition detail_of (e : JsError) : option string :=
  match response e with
  | Some r => detail r
  | None => None
  end.

(** [error.response?.status === 401]. *)
Definition is_401 (e : JsError) : bool :=
  match response e with
  | Some r => status r =? 401
  | None => false
  end.

(** [String.prototype.includes]. *)
Definition includes (needle s : string) : bool :=
  match String.index 0 needle s with
  | Some _ => true
  | None => false
  end.

Section Actions.

Variable env : Env.

(** A call through the axios instance: the request interceptor adds the
    header when a token is stored; on an error the response interceptor
    deletes the stored token when the status is 401, and then rejects
    with the same error. When the delete throws, the call rejects with
    what it threw. *)
Definition through_api {A} (c : Call)
    (answer : list Request -> Request -> result A) : M A :=
  token <- getItem ;;
  let request := mkRequest c (truthy token) in
  fun w =>
    let w1 := mkWorld (state w) (auth_token w) (requests w ++ [request]) in
    match answer (requests w) request with
    | Ok a => (Ok a, w1)
    | Err e =>
        if is_401 e then (deleteItem env ;; throw e) w1 else (Err e, w1)
    end.

Definition login (email password : string) : M unit :=
  try_catch
    (data <- through_api (PostLogin email password) (api_login env) ;;
     setItem (access_token data) ;;
     set (fun _ => mkAuthState (Some (login_user data)) true false))
    (fun error =>
       throw (new_Error (or_else (detail_of error) "Login failed"))).

Definition confirm_email_message : string :=
  "Registration successful! Please check your email to confirm your account before logging in.".

Definition register (email password name : string) : M unit :=
  try_catch
    (through_api (PostRegister email password name) (api_register env) ;;
     try_catch
       (login email password)
       (fun _ => throw (new_Error confirm_email_message)))
    (fun error =>
       if negb (String.eqb (message error) "")
          && includes "Registration successful" (message error)
       then throw error
       else throw (new_Error
                     (or_else (detail_of error)
                        (or_else (Some (message error)) "Registration failed")))).

Definition logout : M unit :=
  deleteItem env ;;
  set (fun s => mkAuthState None false (isLoading s)).

Definition checkAuth : M unit :=
  try_catch
    (token <- getItem ;;
     match truthy token with
     | None => set (fun s => mkAuthState (user s) false false)
     | Some _ =>
         me <- through_api GetMe (api_me env) ;;
         set (fun _ => mkAuthState (Some me) true false)
     end)
    (fun _ =>
       deleteItem env ;;
       set (fun _ => mkAuthState None false false)).

End Actions.

(** What a call through the axios instance rejects with when the remote
    answers with the error [e]. *)
Definition rejection (env : Env) (e : JsError) : JsError :=
  if is_401 e then
    match platform env with
    | Web => e
    | Mobile => new_Error (not_a_function env)
    end
  else e.

(** The stored token after such a call. *)
Definition token_after_error (env : Env) (e : JsError) (token : option string)
    : option string :=
  if is_401 e then
    match platform env with
    | Web => None
    | Mobile => token
    end
  else token.

Definition outcome {A} (p : result A * World) : result A := fst p.
Definition world_after {A} (p : result A * World) : World := snd p.

End Auth.

(** ** The food entry screen: recognising a photo, saving the form

    [processImage] and [handleSave] of
    [frontend/src/screens/FoodEntryScreen.tsx], with the form fields they
    read and set, the alerts they raise and the store they call. The
    JavaScript built-ins they use ([trim], [parseFloat], the number
    printer, the date formatter, the message of an axios error) and the
    recognition service are the environment; the recognition service
    answers from the uploads it received. The strings are byte strings:
    the code looks only at the characters ['/'], ['.'] and the word
    characters, which are single bytes. *)
Module Screen.

Record Form := mkForm {
  image : option string;
  foodName : string;
  calories : string;
  protein : string;
  carbs : string;
  fats : string;
  servingSize : string;
  isProcessing : bool
}.

(** The file part of the form data of the recognition call. *)
Record Upload := mkUpload {
  uri : string;
  name : string;
  type : string
}.

(** [response.data] of [POST /food/recognize]. *)
Record FoodData := mkFoodData {
  food_name : option string;
  fd_calories : option float;
  fd_protein : option float;
  fd_carbs : option float;
  fd_fats : option float;
  serving_size : option string;
  note : option string
}.

Record Host := mkHost {
  recognize : list Upload -> Upload -> result FoodData;
  number_toString : float -> string;
  trim : string -> string;
  parseFloat : string -> float;
  format_day : Z -> string;
  message_of : AxiosError -> string;
  store_env : Env
}.

(** The screen: its form, the alerts raised so far (title and message),
    the uploads sent so far, and the world of the food store. *)
Record State := mkState {
  form : Form;
  alerts : list (string * string);
  uploads : list Upload;
  food : World
}.

(** [s.split('/')]. *)
Fixpoint split_slash (s : string) : list string :=
  match s with
  | EmptyString => [EmptyString]
  | String c rest =>
      if Ascii.eqb c "/"%char then EmptyString :: split_slash rest
      else match split_slash rest with
           | first :: others => String c first :: others
           | [] => [String c EmptyString]
           end
  end.

(** [a.pop()], nothing for an empty array. *)
Definition pop (a : list string) : option string :=
  match rev a with
  | last :: _ => Some last
  | [] => None
  end.

(** [a || b] on strings. *)
Definition or_default (a : option string) (b : string) : string :=
  match a with
  | Some v => if String.eqb v "" then b else v
  | None => b
  end.

(** [\w]. *)
Definition is_word (c : ascii) : bool :=
  let n := nat_of_ascii c in
  ((48 <=? n) && (n <=? 57) || (65 <=? n) && (n <=? 90)
   || (97 <=? n) && (n <=? 122) || (n =? 95))%nat.

Fixpoint all_word (s : string) : bool :=
  match s with
  | EmptyString => true
  | String c rest => is_word c && all_word rest
  end.

(** [/\.(\w+)$/.exec(s)]: the group of the leftmost match. *)
Fixpoint exec_extension (s : string) : option string :=
  match s with
  | EmptyString => None
  | String c rest =>
      if Ascii.eqb c "."%char && negb (String.eqb rest "") && all_word rest
      then Some rest
      else exec_extension rest
  end.

Definition upload_name (uri : string) : string :=
  or_default (pop (split_slash uri)) "photo.jpg".

Definition upload_type (filename : string) : string :=
  match exec_extension filename with
  | Some extension => String.append "image/" extension
  | None => "image/jpeg"
  end.

(** [x?.toString() || ''] on an optional number. *)
Definition printed (h : Host) (x : option float) : string :=
  match x with
  | Some v => or_default (Some (number_toString h v)) ""
  | None => ""
  end.

Definition alert (title message : string) (s : State) : State :=
  mkState (form s) (alerts s ++ [(title, message)]) (uploads s) (food s).

Definition set_form (f : Form -> Form) (s : State) : State :=
  mkState (f (form s)) (alerts s) (uploads s) (food s).

(** The setters a successful recognition calls. *)
Definition populate (h : Host) (d : FoodData) (f : Form) : Form :=
  mkForm (image f)
    (or_default (food_name d) "")
    (printed h (fd_calories d)) (printed h (fd_protein d))
    (printed h (fd_carbs d)) (printed h (fd_fats d))
    (or_default (serving_size d) "1 serving")
    (isProcessing f).

Definition processImage (h : Host) (picked : string) (s : State) : State :=
  let s1 := set_form (fun f => mkForm (Some picked) (foodName f) (calories f)
                                 (protein f) (carbs f) (fats f) (servingSize f) true) s in
  let filename := upload_name picked in
  let upload := mkUpload picked filename (upload_type filename) in
  let s2 := mkState (form s1) (alerts s1) (uploads s1 ++ [upload]) (food s1) in
  let s3 :=
    match recognize h (uploads s1) upload with
    | Ok foodData =>
        let s' := set_form (populate h foodData) s2 in
        match note foodData with
        | Some text => if String.eqb text "" then s' else alert "Recognition" text s'
        | None => s'
        end
    | Err _ =>
        alert "Recognition Failed"
          "Could not recognize food. Please fill in the details manually." s2
    end in
  set_form (fun f => mkForm (image f) (foodName f) (calories f) (protein f)
                       (carbs f) (fats f) (servingSize f) false) s3.

(** [x || 0] on a number: zero, minus zero and NaN are falsy. *)
Definition or_zero (x : float) : float :=
  if (PrimFloat.eqb x 0%float || PrimFloat.is_nan x)%bool then 0%float else x.

(** [s || undefined] on a string. *)
Definition or_undefined (s : string) : option string :=
  if String.eqb s "" then None else Some s.

(** The draft [handleSave] hands to [addEntry], given the day. *)
Definition draft_of_form (h : Host) (f : Form) (today : string) : Draft.t :=
  Draft.mk (trim h (foodName f))
    (or_zero (parseFloat h (calories f))) (or_zero (parseFloat h (protein f)))
    (or_zero (parseFloat h (carbs f))) (or_zero (parseFloat h (fats f)))
    (or_undefined (trim h (servingSize f)))
    match image f with
    | Some u => or_undefined u
    | None => None
    end
    today.

Definition empty_form (f : Form) : Form :=
  mkForm None "" "" "" "" "" "" (isProcessing f).

(** [new Date()] of [handleSave]: one reading of the clock. *)
Definition read_clock (h : Host) (w : World) : Z * World :=
  (wall_clock (store_env h) (clock_reads w),
   mkWorld (store w) (cache w) (requests w) (S (clock_reads w))).

Definition handleSave (h : Host) (s : State) : State :=
  if String.eqb (trim h (foodName (form s))) "" then
    alert "Error" "Please enter a food name" s
  else
    let (now, w1) := read_clock h (food s) in
    match addEntry (store_env h) (draft_of_form h (form s) (format_day h now)) w1 with
    | (Ok _, w2) =>
        alert "Success" "Food entry added!"
          (mkState (empty_form (form s)) (alerts s) (uploads s) w2)
    | (Err error, w2) =>
        alert "Error" (or_default (Some (message_of h error)) "Failed to save entry")
          (mkState (form s) (alerts s) (uploads s) w2)
    end.

(** No ['/'] in the string. *)
Fixpoint no_slash (s : string) : bool :=
  match s with
  | EmptyString => true
  | String c rest => negb (Ascii.eqb c "/"%char) && no_slash rest
  end.

End Screen.

(** ** Scenarios for the properties of the store, the auth store and the
    screen *)

(** The list of the day is served once, then the remote is out of reach. *)
Definition listed_once : Env :=
  remote [] 1
    (fun sent _ => match sent with
                   | [] => Ok two_listed
                   | _ :: _ => Err NetworkError
                   end)
    unreachable unreachable.

(** The table after three failed [addEntry] on an empty table. *)
Definition three_queued_table : Table :=
  mkTable [mkRow (queued 1 oatmeal "2024-05-01T12:00:00.000Z") false;
           mkRow (queued 2 yogurt "2024-05-01T12:00:04.000Z") false;
           mkRow (queued 3 banana "2024-05-01T12:00:08.000Z") false] 3.

Definition ada : Auth.User := Auth.mkUser "u-1" "ada@example.org" (Some "Ada").

(** A remote that signs Ada in with the token ['token-1'] and knows her by
    that token only, reached from the given platform. *)
Definition auth_remote (platform : Auth.Platform) : Auth.Env :=
  Auth.mkEnv platform
    (fun _ _ => Auth.Ok (Auth.mkLoginData "token-1" ada))
    (fun _ _ => Auth.Ok tt)
    (fun _ request =>
       match Auth.bearer request with
       | Some t =>
           if String.eqb t "token-1" then Auth.Ok ada
           else Auth.Err (Auth.mkJsError "Request failed with status code 401"
                            (Some (Auth.mkHttpResponse 401 (Some "Invalid token"))))
       | None =>
           Auth.Err (Auth.mkJsError "Request failed with status code 401"
                       (Some (Auth.mkHttpResponse 401 (Some "Not authenticated"))))
       end)
    "storage.deleteItem is not a function".

(** The same remote once it hands out the token ['token-0'], which it no
    longer knows when asked who that is. *)
Definition expired_remote (platform : Auth.Platform) : Auth.Env :=
  Auth.mkEnv platform
    (fun _ _ => Auth.Ok (Auth.mkLoginData "token-0" ada))
    (Auth.api_register (auth_remote platform))
    (Auth.api_me (auth_remote platform))
    (Auth.not_a_function (auth_remote platform)).

(** A remote that takes the registration and refuses the login until the
    address is confirmed. *)
Definition unconfirmed_remote : Auth.Env :=
  Auth.mkEnv Auth.Web
    (fun _ _ =>
       Auth.Err (Auth.mkJsError "Request failed with status code 400"
                   (Some (Auth.mkHttpResponse 400 (Some "Email not confirmed")))))
    (fun _ _ => Auth.Ok tt)
    (fun _ _ => Auth.Err (Auth.mkJsError "Network Error" None))
    "storage.deleteItem is not a function".

Definition signed_out : Auth.World :=
  Auth.mkWorld (Auth.mkAuthState None false true) None [].

(** Ada signed in on mobile. *)
Definition signed_in_on_mobile : Auth.World :=
  Auth.world_after
    (Auth.login (auth_remote Auth.Mobile) "ada@example.org" "secret" signed_out).

(** Stand-ins for the built-ins, on the strings of the scenario: [trim]
    strips the spaces at both ends, [parseFloat] knows the numbers typed
    in the form. *)
Fixpoint strip_left (l : list ascii) : list ascii :=
  match l with
  | c :: rest => if Ascii.eqb c " "%char then strip_left rest else l
  | [] => []
  end.

Definition trim_spaces (s : string) : string :=
  string_of_list_ascii
    (rev (strip_left (rev (strip_left (list_ascii_of_string s))))).

Definition parse_typed (s : string) : float :=
  if String.eqb s "300" then 300%float
  else if String.eqb s "10" then 10%float
  else if String.eqb s "54" then 54%float
  else if String.eqb s "5" then 5%float
  else PrimFloat.nan.

Definition offline_host : Screen.Host :=
  Screen.mkHost
    (fun _ _ => Err NetworkError)
    (fun _ => "0")
    trim_spaces parse_typed
    (fun _ => day)
    (fun e => match e with
              | NetworkError => "Network Error"
              | HttpError _ => "Request failed"
              end)
    offline.

(** The form as typed: a name with spaces around, the fats left empty. *)
Definition typed_form : Screen.Form :=
  Screen.mkForm None " oatmeal " "300" "10" "54" "" "1 bowl" false.

Definition typed_screen : Screen.State :=
  Screen.mkState typed_form [] [] sqlite_start.
(** ** How the actions run, step by step *)

Lemma for_of_app {A} (xs ys : list A) (body : A -> M unit) (w : World) :
  (forall x w0, outcome (body x w0) = Ok tt) ->
  for_of (xs ++ ys) body w = for_of ys body (world_after (for_of xs body w)).
Proof.
  intros Hok. revert w.
  induction xs as [|x xs IH]; intros w; simpl.
  - reflexivity.
  - unfold bind. specialize (Hok x w).
    destruct (body x w) as [[[]|e] w1]; simpl in *.
    + apply IH.
    + discriminate Hok.
Qed.

Lemma cache_all_run (resp : list FoodEntry) (w : World) :
  for_of resp cacheEntryLocally w =
  (Ok tt,
   mkWorld (store w)
     (fold_left (fun c e => cacheEntryLocally_cache e c) resp (cache w))
     (requests w) (clock_reads w)).
Proof.
  revert w. induction resp as [|e resp IH]; intros w; simpl.
  - destruct w; reflexivity.
  - unfold bind, cacheEntryLocally, update_cache. rewrite IH. reflexivity.
Qed.

Section Runs.

Variable env : Env.

Lemma fetchEntries_success date w resp :
  api_list env (requests w) (or_selected date (store w)) = Ok resp ->
  fetchEntries env date w =
  (Ok tt,
   mkWorld (mkFoodState resp (summary (store w)) false (selectedDate (store w)))
     (fold_left (fun c e => cacheEntryLocally_cache e c) resp (cache w))
     (requests w ++ [GetEntries (or_selected date (store w))])
     (clock_reads w)).
Proof.
  intros H. unfold fetchEntries, bind, get, set, try_catch, api_get_entries. simpl.
  rewrite H. simpl. rewrite cache_all_run. reflexivity.
Qed.

Lemma fetchEntries_failure date w err :
  api_list env (requests w) (or_selected date (store w)) = Err err ->
  fetchEntries env date w =
  (Ok tt,
   mkWorld
     (mkFoodState
        (getCachedEntries_cache env (or_selected date (store w)) (cache w))
        (summary (store w)) false (selectedDate (store w)))
     (cache w)
     (requests w ++ [GetEntries (or_selected date (store w))])
     (clock_reads w)).
Proof.
  intros H. unfold fetchEntries, bind, get, set, try_catch, api_get_entries. simpl.
  rewrite H. reflexivity.
Qed.

Lemma fetchEntries_never_rejects date w :
  outcome (fetchEntries env date w) = Ok tt.
Proof.
  destruct (api_list env (requests w) (or_selected date (store w))) as [resp|err] eqn:H.
  - rewrite (fetchEntries_success _ _ _ H). reflexivity.
  - rewrite (fetchEntries_failure _ _ _ H). reflexivity.
Qed.

Lemma fetchSummary_run date w :
  fetchSummary env date w =
  (Ok tt,
   mkWorld
     (with_summary
        match api_summary env (requests w) (or_selected date (store w)) with
        | Ok response => response
        | Err _ => local_summary (or_selected date (store w))
                     (local_totals (entries (store w)))
        end
        (store w))
     (cache w)
     (requests w ++ [GetSummary (or_selected date (store w))])
     (clock_reads w)).
Proof.
  unfold fetchSummary, bind, get, set, try_catch, api_get_summary. simpl.
  destruct (api_summary env (requests w) (or_selected date (store w))); reflexivity.
Qed.

Lemma sync_entry_run e w :
  sync_entry env e w =
  (Ok tt,
   mkWorld (store w)
     match api_create env (requests w) (sync_body e) with
     | Ok response => confirm_cache e response (cache w)
     | Err _ => cache w
     end
     (requests w ++ [post_of e])
     (clock_reads w)).
Proof.
  unfold sync_entry, try_catch, bind, api_post_entry, update_cache, ret, post_of.
  destruct (api_create env (requests w) (sync_body e)); reflexivity.
Qed.

Lemma sync_loop_app pre post w :
  sync_loop env (pre ++ post) w =
  sync_loop env post (world_after (sync_loop env pre w)).
Proof.
  unfold sync_loop. apply for_of_app.
  intros x w0. rewrite sync_entry_run. reflexivity.
Qed.

Lemma sync_loop_cons e rest w :
  sync_loop env (e :: rest) w =
  sync_loop env rest (world_after (sync_entry env e w)).
Proof.
  unfold sync_loop. simpl. unfold bind. rewrite sync_entry_run. reflexivity.
Qed.

(** The loop never rejects, sends one [POST] per row in order, and leaves
    the store and the clock alone. *)
Lemma sync_loop_frame us w :
  outcome (sync_loop env us w) = Ok tt /\
  requests (world_after (sync_loop env us w)) = requests w ++ map post_of us /\
  store (world_after (sync_loop env us w)) = store w /\
  clock_reads (world_after (sync_loop env us w)) = clock_reads w.
Proof.
  revert w. induction us as [|e us IH]; intros w.
  - simpl. rewrite app_nil_r. repeat split.
  - rewrite sync_loop_cons. destruct (IH (world_after (sync_entry env e w))) as (H1 & H2 & H3 & H4).
    rewrite H1, H2, H3, H4. rewrite sync_entry_run. simpl.
    rewrite <- app_assoc. repeat split.
Qed.

Lemma syncOfflineEntries_run w :
  syncOfflineEntries env w =
  fetchSummary env None
    (world_after (fetchEntries env None
       (world_after (sync_loop env (select_unsynced (cache w)) w)))).
Proof.
  unfold syncOfflineEntries, try_catch, bind, get_cache. simpl.
  pose proof (sync_loop_frame (select_unsynced (cache w)) w) as (H1 & _).
  destruct (sync_loop env (select_unsynced (cache w)) w) as [r1 w1]. simpl in *. subst r1.
  pose proof (fetchEntries_never_rejects None w1) as H2.
  destruct (fetchEntries env None w1) as [r2 w2]. simpl in *. subst r2.
  rewrite fetchSummary_run. reflexivity.
Qed.

End Runs.

(** ** Lists: sorting, searching, upserting *)

Lemma insert_sorted_perm {A} (before : A -> A -> bool) x l :
  Permutation (insert_sorted before x l) (x :: l).
Proof.
  induction l as [|y l IH]; simpl.
  - apply Permutation_refl.
  - destruct (before x y).
    + apply Permutation_refl.
    + apply Permutation_trans with (y :: x :: l).
      * apply perm_skip. exact IH.
      * apply perm_swap.
Qed.

Lemma stable_sort_perm {A} (before : A -> A -> bool) l :
  Permutation (stable_sort before l) l.
Proof.
  induction l as [|x l IH]; simpl.
  - apply perm_nil.
  - apply Permutation_trans with (x :: stable_sort before l).
    + apply insert_sorted_perm.
    + apply perm_skip. exact IH.
Qed.

(** What [getCachedEntries] returns is the cached entries of the date, in
    some order. *)
Lemma getCachedEntries_perm env date c :
  Permutation (getCachedEntries_cache env date c)
    (filter (fun e => String.eqb (entry_date e) date) (cache_entries c)).
Proof.
  destruct c as [[items]|db|]; simpl.
  - apply stable_sort_perm.
  - apply stable_sort_perm.
  - apply perm_nil.
Qed.

Lemma findIndex_none {A} (p : A -> bool) l :
  findIndex p l = None -> forall x, In x l -> p x = false.
Proof.
  induction l as [|y l IH]; simpl; intros H x Hx.
  - contradiction.
  - destruct (p y) eqn:Hy; [discriminate|].
    destruct (findIndex p l); [discriminate|].
    destruct Hx as [<-|Hx]; auto.
Qed.

(** [assign] at the index [findIndex] found keeps every element the test
    rejects. *)
Lemma assign_keeps {A} (p : A -> bool) l i y x :
  findIndex p l = Some i -> In x l -> p x = false -> In x (assign i y l).
Proof.
  revert i. induction l as [|z l IH]; simpl; intros i Hi Hx Hp.
  - contradiction.
  - destruct (p z) eqn:Hz.
    + injection Hi as <-. destruct Hx as [->|Hx].
      * congruence.
      * right. exact Hx.
    + destruct (findIndex p l) as [j|] eqn:Hj; [|discriminate].
      injection Hi as <-. destruct Hx as [->|Hx].
      * left. reflexivity.
      * right. apply (IH j); auto.
Qed.

Lemma assign_in {A} (p : A -> bool) l i y :
  findIndex p l = Some i -> In y (assign i y l).
Proof.
  revert i. induction l as [|z l IH]; simpl; intros i Hi.
  - discriminate.
  - destruct (p z).
    + injection Hi as <-. left. reflexivity.
    + destruct (findIndex p l) as [j|]; [|discriminate].
      injection Hi as <-. right. apply (IH j). reflexivity.
Qed.


Lemma upsert_row_keeps r l x :
  In x l -> id (row_entry x) <> id (row_entry r) -> In x (upsert_row r l).
Proof.
  induction l as [|y l IH]; simpl; intros Hx Hne.
  - contradiction.
  - destruct (id (row_entry r) <? id (row_entry y)).
    + right. exact Hx.
    + destruct (Z.eqb_spec (id (row_entry r)) (id (row_entry y))) as [E|E].
      * destruct Hx as [->|Hx]; [congruence|]. right. exact Hx.
      * destruct Hx as [->|Hx]; [left; reflexivity|]. right. auto.
Qed.

Lemma upsert_row_in r l : In r (upsert_row r l).
Proof.
  induction l as [|y l IH]; simpl.
  - left. reflexivity.
  - destruct (id (row_entry r) <? id (row_entry y)); [left; reflexivity|].
    destruct (id (row_entry r) =? id (row_entry y)); [left; reflexivity|].
    right. exact IH.
Qed.

Lemma upsert_row_from r l x :
  In x (upsert_row r l) -> x = r \/ In x l.
Proof.
  induction l as [|y l IH]; simpl; intros Hx.
  - destruct Hx as [<-|[]]. left. reflexivity.
  - destruct (id (row_entry r) <? id (row_entry y)).
    + destruct Hx as [<-|Hx]; [left; reflexivity|right; exact Hx].
    + destruct (id (row_entry r) =? id (row_entry y)).
      * destruct Hx as [<-|Hx]; [left; reflexivity|right; right; exact Hx].
      * destruct Hx as [<-|Hx]; [right; left; reflexivity|].
        destruct (IH Hx) as [H|H]; [left; exact H|right; right; exact H].
Qed.

(** A fold of upserts, whatever the container: rows under another key
    stay, nothing comes from elsewhere, and every key upserted is held by
    an upserted value afterwards. *)
Section UpsertFold.

Variables (X E : Type) (key : X -> Z) (ekey : E -> Z) (val : E -> X).
Variable upsert : E -> list X -> list X.
Hypothesis val_key : forall e, key (val e) = ekey e.
Hypothesis upsert_keeps :
  forall e l x, In x l -> key x <> ekey e -> In x (upsert e l).
Hypothesis upsert_in : forall e l, In (val e) (upsert e l).
Hypothesis upsert_from :
  forall e l x, In x (upsert e l) -> x = val e \/ In x l.

Lemma upsert_fold_keeps es l x :
  In x l -> ~ In (key x) (map ekey es) ->
  In x (fold_left (fun l e => upsert e l) es l).
Proof.
  revert l. induction es as [|e es IH]; simpl; intros l Hx Hn.
  - exact Hx.
  - apply IH.
    + apply upsert_keeps; auto.
    + intros H. apply Hn. right. exact H.
Qed.

Lemma upsert_fold_from es l x :
  In x (fold_left (fun l e => upsert e l) es l) ->
  In x l \/ exists e, In e es /\ x = val e.
Proof.
  revert l. induction es as [|e es IH]; simpl; intros l Hx.
  - left. exact Hx.
  - destruct (IH _ Hx) as [H|(e' & He' & ->)].
    + destruct (upsert_from _ _ _ H) as [->|H'].
      * right. exists e. auto.
      * left. exact H'.
    + right. exists e'. auto.
Qed.

Lemma upsert_fold_in es l e :
  In e es ->
  exists e', In e' es /\ ekey e' = ekey e /\
             In (val e') (fold_left (fun l e => upsert e l) es l).
Proof.
  revert l e. induction es as [|a es IH]; simpl; intros l e He.
  - contradiction.
  - destruct (in_dec Z.eq_dec (ekey e) (map ekey es)) as [Hin|Hout].
    + apply in_map_iff in Hin. destruct Hin as (b & Hb & Hbin).
      destruct (IH (upsert a l) b Hbin) as (e' & H1 & H2 & H3).
      exists e'. repeat split; auto. congruence.
    + destruct He as [->|He].
      * exists e. repeat split; auto.
        apply upsert_fold_keeps.
        -- apply upsert_in.
        -- rewrite val_key. exact Hout.
      * exfalso. apply Hout. apply in_map. exact He.
Qed.

Hypothesis upsert_fresh :
  forall e l, ~ In (ekey e) (map key l) -> Permutation (upsert e l) (val e :: l).


End UpsertFold.


Lemma web_upsert_keeps e l x :
  In x l -> id x <> id e -> In x (web_upsert e l).
Proof.
  intros Hx Hne. unfold web_upsert.
  destruct (findIndex (fun x0 => id x0 =? id e) l) as [i|] eqn:Hi.
  - apply (assign_keeps _ _ _ _ _ Hi Hx). apply Z.eqb_neq. exact Hne.
  - apply in_or_app. left. exact Hx.
Qed.

Lemma web_upsert_in e l : In e (web_upsert e l).
Proof.
  unfold web_upsert.
  destruct (findIndex (fun x0 => id x0 =? id e) l) as [i|] eqn:Hi.
  - apply (assign_in _ _ _ _ Hi).
  - apply in_or_app. right. left. reflexivity.
Qed.



Lemma upsert_row_fresh r l :
  ~ In (id (row_entry r)) (map (fun x => id (row_entry x)) l) ->
  Permutation (upsert_row r l) (r :: l).
Proof.
  induction l as [|y l IH]; simpl; intros Hn.
  - apply Permutation_refl.
  - destruct (id (row_entry r) <? id (row_entry y)).
    + apply Permutation_refl.
    + destruct (Z.eqb_spec (id (row_entry r)) (id (row_entry y))) as [E|E].
      * exfalso. apply Hn. left. symmetry. exact E.
      * apply Permutation_trans with (y :: r :: l).
        -- apply perm_skip. apply IH. intros H. apply Hn. right. exact H.
        -- apply perm_swap.
Qed.

(** ** The JSON text of the web cache *)

Lemma json_number_idem n : json_number (json_number n) = json_number n.
Proof.
  destruct n as [x|]; simpl; [|reflexivity].
  destruct (PrimFloat.is_finite x) eqn:Hf; [|reflexivity].
  destruct (PrimFloat.is_zero x) eqn:Hz; simpl.
  - reflexivity.
  - rewrite Hf, Hz. reflexivity.
Qed.

(** A finite number other than the two zeros goes through JSON as it
    is. *)
Lemma json_number_finite (x : float) :
  PrimFloat.is_finite x = true -> PrimFloat.is_zero x = false ->
  json_number (Number x) = Number x.
Proof. intros Hf Hz. simpl. rewrite Hf, Hz. reflexivity. Qed.

Lemma json_entry_idem e : json_entry (json_entry e) = json_entry e.
Proof. unfold json_entry. simpl. rewrite !json_number_idem. reflexivity. Qed.

Lemma map_json_idem l : map json_entry (map json_entry l) = map json_entry l.
Proof. rewrite map_map. apply map_ext. intros e. apply json_entry_idem. Qed.

(** What was read from the web cache reads back as it is. *)
Lemma json_entry_read e l : In e (map json_entry l) -> json_entry e = e.
Proof.
  intros H. apply in_map_iff in H. destruct H as (x & <- & _).
  apply json_entry_idem.
Qed.

Lemma findIndex_json k l :
  findIndex (fun e => id e =? k) (map json_entry l) =
  findIndex (fun e => id e =? k) l.
Proof.
  induction l as [|x l IH]; simpl; [reflexivity|].
  rewrite IH. reflexivity.
Qed.

Lemma map_assign {A B} (f : A -> B) i y l :
  map f (assign i y l) = assign i (f y) (map f l).
Proof.
  revert i. induction l as [|x l IH]; intros [|i]; simpl; try reflexivity.
  rewrite IH. reflexivity.
Qed.

Lemma json_web_upsert e l :
  map json_entry (web_upsert e l) = web_upsert (json_entry e) (map json_entry l).
Proof.
  unfold web_upsert. simpl. rewrite findIndex_json.
  destruct (findIndex (fun x => id x =? id e) l) as [i|].
  - apply map_assign.
  - rewrite map_app. reflexivity.
Qed.

(** What the loop of [fetchEntries] makes of the cache, per backend. *)
Lemma cacheEntryLocally_web e items :
  cacheEntryLocally_cache e (WebCache (JSON_stringify items)) =
  WebCache (JSON_stringify (web_upsert e (map json_entry items))).
Proof.
  unfold cacheEntryLocally_cache, web_upsert. simpl.
  destruct (findIndex (fun e0 => id e0 =? id e) (map json_entry items)); reflexivity.
Qed.

Lemma cache_fold_web resp items :
  fold_left (fun c e => cacheEntryLocally_cache e c) resp
    (WebCache (JSON_stringify items)) =
  WebCache
    (JSON_stringify
       (fold_left (fun l e => web_upsert e (map json_entry l)) resp items)).
Proof.
  revert items. induction resp as [|e resp IH]; intros items; simpl.
  - reflexivity.
  - rewrite cacheEntryLocally_web. apply IH.
Qed.

(** The same as a read of the cache sees it: each returned entry is
    upserted as JSON keeps it. *)
Lemma cache_fold_web_read resp items :
  map json_entry
    (fold_left (fun l e => web_upsert e (map json_entry l)) resp items) =
  fold_left (fun l e => web_upsert (json_entry e) l) resp (map json_entry items).
Proof.
  revert items. induction resp as [|e resp IH]; intros items; simpl.
  - reflexivity.
  - rewrite IH. rewrite json_web_upsert, map_json_idem. reflexivity.
Qed.

Lemma json_upsert_keeps e l x :
  In x l -> id x <> id e -> In x (web_upsert (json_entry e) l).
Proof. intros Hx Hne. apply web_upsert_keeps; assumption. Qed.

Lemma json_upsert_in e l : In (json_entry e) (web_upsert (json_entry e) l).
Proof. apply web_upsert_in. Qed.



Lemma cache_fold_sqlite resp db :
  fold_left (fun c e => cacheEntryLocally_cache e c) resp (SqliteCache db) =
  SqliteCache
    (mkTable (fold_left (fun l e => upsert_row (synced_row e) l) resp (rows db))
             (fold_left Z.max (map id resp) (seq db))).
Proof.
  revert db. induction resp as [|e resp IH]; intros db; simpl.
  - destruct db; reflexivity.
  - unfold cacheEntryLocally_cache at 2. simpl. rewrite IH. reflexivity.
Qed.


(** ** Totals of the fallback summary *)

Lemma fold_totals es acc :
  fold_left add_entry_totals es acc =
  Totals.mk
    (fold_left (fun a e => (a + ToNumber (calories e))%float) es (Totals.calories acc))
    (fold_left (fun a e => (a + ToNumber (protein e))%float) es (Totals.protein acc))
    (fold_left (fun a e => (a + ToNumber (carbs e))%float) es (Totals.carbs acc))
    (fold_left (fun a e => (a + ToNumber (fats e))%float) es (Totals.fats acc)).
Proof.
  revert acc. induction es as [|e es IH]; intros acc; simpl.
  - destruct acc; reflexivity.
  - rewrite IH. reflexivity.
Qed.

Lemma local_totals_sums es :
  local_totals es =
  Totals.mk (sum_of calories es) (sum_of protein es) (sum_of carbs es) (sum_of fats es).
Proof. unfold local_totals. rewrite fold_totals. reflexivity. Qed.

(** ** The two write paths that reject *)

Lemma cacheEntry_run env entry w :
  cacheEntry env entry w =
  (Ok tt,
   mkWorld (store w)
     (cacheEntry_cache
        (entryToCache (wall_clock env (S (clock_reads w))) entry
           (toISOString env (wall_clock env (clock_reads w))))
        (cache w))
     (requests w) (S (S (clock_reads w)))).
Proof. reflexivity. Qed.

Lemma addEntry_failure env entry w err :
  api_create env (requests w) entry = Err err ->
  addEntry env entry w =
  (Err err,
   mkWorld (store w)
     (cacheEntry_cache
        (entryToCache (wall_clock env (S (clock_reads w))) entry
           (toISOString env (wall_clock env (clock_reads w))))
        (cache w))
     (requests w ++ [PostEntry entry]) (S (S (clock_reads w)))).
Proof.
  intros H. unfold addEntry, try_catch, bind, api_post_entry, throw. simpl.
  rewrite H. reflexivity.
Qed.

Lemma deleteEntry_run env entry_id w :
  deleteEntry env entry_id w =
  match api_delete env (requests w) entry_id with
  | Ok _ =>
      fetchSummary env None
        (mkWorld
           (with_entries
              (filter (fun entry => negb (id entry =? entry_id)) (entries (store w)))
              (store w))
           (cache w) (requests w ++ [DeleteEntry entry_id]) (clock_reads w))
  | Err err => (Err err, sent (DeleteEntry entry_id) w)
  end.
Proof.
  unfold deleteEntry, try_catch, bind, api_delete_entry, set, throw. simpl.
  destruct (api_delete env (requests w) entry_id) as [[]|err]; simpl.
  - rewrite fetchSummary_run. reflexivity.
  - reflexivity.
Qed.

(** The rowid of an [INSERT] is above every rowid of the table. *)
Lemma fold_max_ge l a :
  a <= fold_left Z.max l a /\ forall x, In x l -> x <= fold_left Z.max l a.
Proof.
  revert a. induction l as [|y l IH]; intros a; simpl.
  - split; [lia|contradiction].
  - destruct (IH (Z.max a y)) as [H1 H2]. split; [lia|].
    intros x [->|Hx]; [lia|auto].
Qed.

Lemma next_rowid_fresh t r :
  In r (rows t) -> id (row_entry r) < next_rowid t.
Proof.
  intros Hr. unfold next_rowid.
  destruct (fold_max_ge (map (fun r => id (row_entry r)) (rows t)) (seq t)) as [_ H].
  specialize (H (id (row_entry r))
                (in_map (fun r => id (row_entry r)) _ _ Hr)).
  lia.
Qed.

(** ** Reads that fall back, writes that reject *)

Lemma or_selected_target date st :
  or_selected date st =
  match date with
  | Some d => if String.eqb d "" then selectedDate st else d
  | None => selectedDate st
  end.
Proof.
  unfold or_selected, or_null. destruct date as [d|]; [|reflexivity].
  destruct (String.eqb d ""); reflexivity.
Qed.

(** C9. When the remote list call fails, [fetchEntries] rejects nothing.
    The date it serves is the date passed, or the selected date of the
    store when none is passed (or the empty string). The entries of the
    store become what [getCachedEntries] returns for that date: the cached
    entries of that date and no others, in its order. The cache itself is
    untouched, the loading flag is cleared and the selected date stays as
    it is. *)
Theorem fetchEntries_falls_back_to_cache env date w err :
  let target :=
    match date with
    | Some d => if String.eqb d "" then selectedDate (store w) else d
    | None => selectedDate (store w)
    end in
  api_list env (requests w) target = Err err ->
  let w' := world_after (fetchEntries env date w) in
  outcome (fetchEntries env date w) = Ok tt /\
  requests w' = requests w ++ [GetEntries target] /\
  entries (store w') = getCachedEntries_cache env target (cache w) /\
  Permutation (entries (store w'))
    (filter (on_date target) (cache_entries (cache w))) /\
  (forall e, In e (entries (store w')) <->
             In e (cache_entries (cache w)) /\ entry_date e = target) /\
  cache w' = cache w /\
  isLoading (store w') = false /\
  selectedDate (store w') = selectedDate (store w).
Proof.
  intros target H w'. subst w'.
  assert (Ht : or_selected date (store w) = target) by apply or_selected_target.
  rewrite <- Ht in H. rewrite (fetchEntries_failure _ _ _ _ H). simpl.
  rewrite Ht.
  pose proof (getCachedEntries_perm env target (cache w)) as P.
  split; [reflexivity|]. split; [reflexivity|]. split; [reflexivity|].
  split; [exact P|]. split; [|repeat split].
  intros e. split.
  - intros He. apply (Permutation_in _ P) in He. apply filter_In in He.
    destruct He as [H1 H2]. split; [exact H1|]. apply String.eqb_eq. exact H2.
  - intros [H1 H2]. apply (Permutation_in _ (Permutation_sym P)).
    apply filter_In. split; [exact H1|]. apply String.eqb_eq. exact H2.
Qed.

(** C4, as the code has it. For a draft whose four macro values are
    numbers (none is [NaN], which the table would refuse): when the remote
    create fails, [addEntry] takes two readings of the clock, caches the
    draft where there is a cache, and then rejects with the very error of
    the remote call; the store is not touched.
    - On web the array gets one entry more, at its end: the name, the
      date and the optional strings of the draft, its four macro values as
      JSON keeps them (a value that is not finite is kept as [null], minus
      zero as zero), the second clock reading as identifier and the ISO
      text of the first as creation timestamp.
    - On SQLite one row is inserted, with [synced = 0], next to the rows
      already there: the name, the date and the four macro values of the
      draft, its optional strings ([NULL] for an empty one), the creation
      timestamp, under a rowid above every rowid of the table.
    - Without a database (not web, [db] null) nothing is cached. *)
Theorem addEntry_failure_caches_then_rejects env entry w err :
  api_create env (requests w) entry = Err err ->
  is_a_number (Draft.calories entry) = true ->
  is_a_number (Draft.protein entry) = true ->
  is_a_number (Draft.carbs entry) = true ->
  is_a_number (Draft.fats entry) = true ->
  let now := toISOString env (wall_clock env (clock_reads w)) in
  let temp_id := wall_clock env (S (clock_reads w)) in
  let w' := world_after (addEntry env entry w) in
  outcome (addEntry env entry w) = Err err /\
  store w' = store w /\
  requests w' = requests w ++ [PostEntry entry] /\
  clock_reads w' = S (S (clock_reads w)) /\
  match cache w with
  | WebCache _ =>
      let kept (n : JsNumber) :=
        match n with
        | Number x =>
            if PrimFloat.is_finite x then
              if PrimFloat.is_zero x then Number 0%float else Number x
            else Null
        | Null => Null
        end in
      isWeb (cache w') = true /\
      cache_entries (cache w') =
        cache_entries (cache w) ++
        [mkFoodEntry temp_id (Draft.food_name entry)
           (kept (Draft.calories entry)) (kept (Draft.protein entry))
           (kept (Draft.carbs entry)) (kept (Draft.fats entry))
           (Draft.serving_size entry) (Draft.image_url entry)
           (Draft.entry_date entry) now]
  | SqliteCache db =>
      let pending :=
        mkRow
          (mkFoodEntry (next_rowid db) (Draft.food_name entry)
             (Draft.calories entry) (Draft.protein entry)
             (Draft.carbs entry) (Draft.fats entry)
             (or_null (Draft.serving_size entry)) (or_null (Draft.image_url entry))
             (Draft.entry_date entry) now)
          false in
      exists db',
        cache w' = SqliteCache db' /\
        In pending (rows db') /\
        (forall r, In r (rows db) ->
           In r (rows db') /\ id (row_entry r) < next_rowid db) /\
        (forall r, In r (rows db') -> r = pending \/ In r (rows db))
  | NoCache => cache w' = NoCache
  end.
Proof.
  intros H _ _ _ _ now temp_id w'. subst w'.
  rewrite (addEntry_failure _ _ _ _ H). simpl.
  split; [reflexivity|]. split; [reflexivity|]. split; [reflexivity|].
  split; [reflexivity|].
  destruct (cache w) as [[items]|db|]; simpl.
  - split; [reflexivity|].
    rewrite map_app, map_json_idem. reflexivity.
  - eexists. split; [reflexivity|]. simpl. split; [|split].
    + apply upsert_row_in.
    + intros r Hr. split.
      * apply upsert_row_keeps; [exact Hr|]. simpl.
        pose proof (next_rowid_fresh db r Hr). lia.
      * apply next_rowid_fresh. exact Hr.
    + intros r Hr. apply upsert_row_from in Hr. exact Hr.
  - reflexivity.
Qed.

(** C5, as the code has it. Whatever the identifier, and so also for the
    identifier of a pending entry, [deleteEntry] first sends the remote
    delete and never changes the local cache. *)
Theorem deleteEntry_always_calls_remote env entry_id w :
  let w' := world_after (deleteEntry env entry_id w) in
  cache w' = cache w /\
  exists more, requests w' = requests w ++ DeleteEntry entry_id :: more.
Proof.
  simpl. rewrite deleteEntry_run.
  destruct (api_delete env (requests w) entry_id) as [[]|err].
  - rewrite fetchSummary_run. simpl. split; [reflexivity|].
    eexists. rewrite <- app_assoc. reflexivity.
  - simpl. split; [reflexivity|]. exists []. reflexivity.
Qed.

(** C6, as the code has it. When the remote delete succeeds, [deleteEntry]
    drops the entries of that identifier from the entries of the store and
    leaves the cache as it was; when it fails, [deleteEntry] rejects with
    the error and neither the store nor the cache changes. *)
Theorem deleteEntry_outcomes env entry_id w :
  let w' := world_after (deleteEntry env entry_id w) in
  match api_delete env (requests w) entry_id with
  | Ok _ =>
      outcome (deleteEntry env entry_id w) = Ok tt /\
      entries (store w') =
        filter (fun entry => negb (id entry =? entry_id)) (entries (store w)) /\
      cache w' = cache w
  | Err err =>
      outcome (deleteEntry env entry_id w) = Err err /\
      store w' = store w /\
      cache w' = cache w
  end.
Proof.
  simpl. rewrite deleteEntry_run.
  destruct (api_delete env (requests w) entry_id) as [[]|err].
  - rewrite fetchSummary_run. simpl. repeat split.
  - simpl. repeat split.
Qed.

(** C7, as the code has it. [fetchSummary] never rejects and touches
    neither the entries nor the cache. On remote success the summary of
    the store is the remote one. On remote failure its four totals are the
    sums of the macro fields over all the entries of the store, whatever
    their date and sync state, its date is the date asked, and its goals
    are the constants 2000, 150, 200 and 65. *)
Theorem fetchSummary_summary env date w :
  let w' := world_after (fetchSummary env date w) in
  let target := or_selected date (store w) in
  outcome (fetchSummary env date w) = Ok tt /\
  entries (store w') = entries (store w) /\
  cache w' = cache w /\
  summary (store w') =
    Some match api_summary env (requests w) target with
         | Ok response => response
         | Err _ =>
             MacroSummary.mk target
               (sum_of calories (entries (store w)))
               (sum_of protein (entries (store w)))
               (sum_of carbs (entries (store w)))
               (sum_of fats (entries (store w)))
               2000%float 150%float 200%float 65%float
         end.
Proof.
  simpl. rewrite fetchSummary_run. simpl. repeat split.
  destruct (api_summary env (requests w) (or_selected date (store w))); [reflexivity|].
  unfold local_summary. rewrite local_totals_sums. reflexivity.
Qed.

(** ** A successful fetch merges by identifier *)


(** ** The sync loop, row by row *)

Lemma NoDup_map_filter {A B} (f : A -> B) (p : A -> bool) l :
  NoDup (map f l) -> NoDup (map f (filter p l)).
Proof.
  induction l as [|x l IH]; simpl; intros H.
  - constructor.
  - inversion H as [|? ? Hx Hl]; subst.
    destruct (p x); simpl; auto.
    constructor; auto.
    intros Hin. apply Hx. apply in_map_iff in Hin.
    destruct Hin as (y & Hy & Hyin). apply filter_In in Hyin.
    rewrite <- Hy. apply in_map. tauto.
Qed.

Lemma NoDup_map_eq {A B} (f : A -> B) l a b :
  NoDup (map f l) -> In a l -> In b l -> f a = f b -> a = b.
Proof.
  induction l as [|x l IH]; simpl; intros H Ha Hb E.
  - contradiction.
  - inversion H as [|? ? Hx Hl]; subst.
    destruct Ha as [->|Ha], Hb as [->|Hb]; auto.
    + exfalso. apply Hx. rewrite E. apply in_map. exact Hb.
    + exfalso. apply Hx. rewrite <- E. apply in_map. exact Ha.
Qed.

Lemma select_unsynced_unique c :
  ids_unique c -> NoDup (map id (select_unsynced c)).
Proof.
  unfold ids_unique. destruct c as [[items]|db|]; simpl; intros H.
  - apply NoDup_map_filter. exact H.
  - unfold select_unsynced. simpl. rewrite map_map in *.
    apply NoDup_map_filter. exact H.
  - constructor.
Qed.

(** In a list without repeated identifiers, the rows before and after a
    row have other identifiers. *)
Lemma unique_split (pre post : list FoodEntry) e :
  NoDup (map id (pre ++ e :: post)) ->
  (forall x, In x pre -> id x <> id e) /\ (forall x, In x post -> id x <> id e).
Proof.
  rewrite map_app. simpl. intros H.
  pose proof (NoDup_remove_2 _ _ _ H) as Hn.
  split; intros x Hx E; apply Hn; apply in_or_app; rewrite <- E.
  - left. apply in_map. exact Hx.
  - right. apply in_map. exact Hx.
Qed.

Lemma confirm_keeps_unsynced x response c e :
  id x <> id e ->
  In e (select_unsynced c) ->
  In e (select_unsynced (confirm_cache x response c)).
Proof.
  intros Hne. destruct c as [[items]|db|]; simpl.
  - unfold select_unsynced, confirm_cache. simpl. intros He.
    apply filter_In in He. destruct He as [He Hp].
    pose proof (json_entry_read _ _ He) as Hj.
    destruct (findIndex (fun e0 => id e0 =? id x) (map json_entry items))
      as [i|] eqn:Hi; simpl.
    + apply filter_In. split; [|exact Hp].
      rewrite <- Hj. apply in_map.
      apply (assign_keeps _ _ _ _ _ Hi He). apply Z.eqb_neq. congruence.
    + apply filter_In. split; [|exact Hp]. rewrite map_json_idem. exact He.
  - unfold select_unsynced, confirm_cache. simpl. intros He.
    apply in_map_iff in He. destruct He as (r & Hr & Hin).
    apply filter_In in Hin. destruct Hin as [Hin Hs].
    apply in_map_iff. exists r. split; [exact Hr|].
    apply filter_In. split; [|exact Hs].
    apply in_map_iff. exists r. split; [|exact Hin].
    destruct (Z.eqb_spec (id (row_entry r)) (id x)) as [E|E]; [|reflexivity].
    exfalso. apply Hne. rewrite <- E, Hr. reflexivity.
  - intros [].
Qed.

Section Loop.

Variable env : Env.

Lemma sync_loop_keeps_unsynced us w e :
  (forall x, In x us -> id x <> id e) ->
  In e (select_unsynced (cache w)) ->
  In e (select_unsynced (cache (world_after (sync_loop env us w)))).
Proof.
  revert w. induction us as [|x us IH]; intros w Hne He.
  - exact He.
  - rewrite sync_loop_cons. apply IH.
    + intros y Hy. apply Hne. right. exact Hy.
    + rewrite sync_entry_run. simpl.
      destruct (api_create env (requests w) (sync_body x)); [|exact He].
      apply confirm_keeps_unsynced; [|exact He]. apply Hne. left. reflexivity.
Qed.

(** On SQLite the loop changes nothing but [synced] flags: the rows keep
    their entries, in place. *)
Lemma sync_loop_sqlite_entries us w db :
  cache w = SqliteCache db ->
  exists db',
    cache (world_after (sync_loop env us w)) = SqliteCache db' /\
    map row_entry (rows db') = map row_entry (rows db) /\
    seq db' = seq db.
Proof.
  revert w db. induction us as [|x us IH]; intros w db Hc.
  - exists db. auto.
  - rewrite sync_loop_cons.
    destruct (api_create env (requests w) (sync_body x)) as [response|err] eqn:Hx.
    + destruct (IH (world_after (sync_entry env x w)) (mark_synced (id x) db))
        as (db' & H1 & H2 & H3).
      * rewrite sync_entry_run. simpl. rewrite Hx, Hc. reflexivity.
      * exists db'. split; [exact H1|]. split; [|exact H3].
        rewrite H2. simpl. rewrite map_map. apply map_ext.
        intros r. destruct (id (row_entry r) =? id x); reflexivity.
    + apply IH. rewrite sync_entry_run. simpl. rewrite Hx. exact Hc.
Qed.

Lemma sync_loop_keeps_row us w db r :
  cache w = SqliteCache db ->
  In r (rows db) ->
  (forall x, In x us -> id x <> id (row_entry r)) ->
  exists db',
    cache (world_after (sync_loop env us w)) = SqliteCache db' /\
    In r (rows db').
Proof.
  revert w db. induction us as [|x us IH]; intros w db Hc Hr Hne.
  - exists db. auto.
  - rewrite sync_loop_cons.
    assert (Hne' : forall y, In y us -> id y <> id (row_entry r))
      by (intros y Hy; apply Hne; right; exact Hy).
    destruct (api_create env (requests w) (sync_body x)) as [response|err] eqn:Hx.
    + apply (IH (world_after (sync_entry env x w)) (mark_synced (id x) db)).
      * rewrite sync_entry_run. simpl. rewrite Hx, Hc. reflexivity.
      * simpl. apply in_map_iff. exists r. split; [|exact Hr].
        destruct (Z.eqb_spec (id (row_entry r)) (id x)) as [E|E]; [|reflexivity].
        exfalso. apply (Hne x); [left; reflexivity|]. symmetry. exact E.
      * exact Hne'.
    + apply (IH (world_after (sync_entry env x w)) db).
      * rewrite sync_entry_run. simpl. rewrite Hx. exact Hc.
      * exact Hr.
      * exact Hne'.
Qed.

End Loop.

(** A row of the queue whose create fails is still unsynced when the loop
    ends. *)
Lemma sync_loop_failed_row_stays env w pre e post err :
  ids_unique (cache w) ->
  select_unsynced (cache w) = pre ++ e :: post ->
  api_create env (requests w ++ map post_of pre) (sync_body e) = Err err ->
  In e (select_unsynced
          (cache (world_after (sync_loop env (select_unsynced (cache w)) w)))).
Proof.
  intros Hu Hsplit Hx.
  pose proof (select_unsynced_unique _ Hu) as Hnd.
  rewrite Hsplit in Hnd. destruct (unique_split _ _ _ Hnd) as [Hpre Hpost].
  assert (He : In e (select_unsynced (cache w))).
  { rewrite Hsplit. apply in_or_app. right. left. reflexivity. }
  rewrite Hsplit. rewrite sync_loop_app, sync_loop_cons.
  assert (Hreq : requests (world_after (sync_loop env pre w))
                 = requests w ++ map post_of pre)
    by (apply (sync_loop_frame env pre w)).
  apply sync_loop_keeps_unsynced; [exact Hpost|].
  rewrite sync_entry_run. simpl. rewrite Hreq, Hx.
  apply sync_loop_keeps_unsynced; assumption.
Qed.

(** The refresh keeps an unsynced row whose identifier the remote list
    does not hold. *)
Lemma fetchEntries_keeps_unsynced env date w e :
  In e (select_unsynced (cache w)) ->
  (forall resp,
     api_list env (requests w) (or_selected date (store w)) = Ok resp ->
     ~ In (id e) (map id resp)) ->
  In e (select_unsynced (cache (world_after (fetchEntries env date w)))).
Proof.
  intros He Hfresh.
  destruct (api_list env (requests w) (or_selected date (store w))) as [resp|err] eqn:H.
  - rewrite (fetchEntries_success _ _ _ _ H). simpl.
    specialize (Hfresh resp eq_refl).
    destruct (cache w) as [[items]|db|]; [| |destruct He].
    + rewrite cache_fold_web. unfold select_unsynced in *. simpl in *.
      apply filter_In in He. destruct He as [He Hp].
      apply filter_In. split; [|exact Hp].
      rewrite cache_fold_web_read.
      apply (upsert_fold_keeps _ _ id id
               (fun e l => web_upsert (json_entry e) l) json_upsert_keeps);
        assumption.
    + rewrite cache_fold_sqlite. unfold select_unsynced in *. simpl in *.
      apply in_map_iff in He. destruct He as (r & Hr & Hin).
      apply filter_In in Hin. destruct Hin as [Hin Hs].
      apply in_map_iff. exists r. split; [exact Hr|].
      apply filter_In. split; [|exact Hs].
      apply (upsert_fold_keeps _ _ (fun r => id (row_entry r)) id
               (fun e l => upsert_row (synced_row e) l)).
      * intros e0 l x Hx Hne. apply upsert_row_keeps; assumption.
      * exact Hin.
      * rewrite Hr. exact Hfresh.
  - rewrite (fetchEntries_failure _ _ _ _ H). simpl. exact He.
Qed.

(** The same through the whole of [syncOfflineEntries]: the failed row is
    still unsynced after the refresh, unless the remote list holds an
    entry under its identifier (the refresh then writes that entry over
    it). *)
Lemma syncOfflineEntries_failed_row_stays env w pre e post err :
  ids_unique (cache w) ->
  select_unsynced (cache w) = pre ++ e :: post ->
  api_create env (requests w ++ map post_of pre) (sync_body e) = Err err ->
  (forall resp,
     api_list env (requests w ++ map post_of (select_unsynced (cache w)))
       (selectedDate (store w)) = Ok resp ->
     ~ In (id e) (map id resp)) ->
  In e (select_unsynced (cache (world_after (syncOfflineEntries env w)))).
Proof.
  intros Hu Hsplit Hx Hfresh.
  rewrite syncOfflineEntries_run, fetchSummary_run. simpl.
  destruct (sync_loop_frame env (select_unsynced (cache w)) w) as (_ & Hreq & Hst & _).
  apply fetchEntries_keeps_unsynced.
  - apply (sync_loop_failed_row_stays env w pre e post err); assumption.
  - rewrite Hreq, Hst. exact Hfresh.
Qed.

Section Marked.

Variable env : Env.

(** The loop only raises flags: a row unsynced after it was unsynced
    before, unchanged. *)
Lemma sync_loop_only_marks us w db :
  cache w = SqliteCache db ->
  exists db',
    cache (world_after (sync_loop env us w)) = SqliteCache db' /\
    forall r, In r (rows db') -> synced r = false -> In r (rows db).
Proof.
  revert w db. induction us as [|x us IH]; intros w db Hc.
  - exists db. auto.
  - rewrite sync_loop_cons.
    destruct (api_create env (requests w) (sync_body x)) as [response|err] eqn:Hx.
    + destruct (IH (world_after (sync_entry env x w)) (mark_synced (id x) db))
        as (db' & H1 & H2).
      * rewrite sync_entry_run. simpl. rewrite Hx, Hc. reflexivity.
      * exists db'. split; [exact H1|]. intros r Hr Hs.
        specialize (H2 r Hr Hs). simpl in H2. apply in_map_iff in H2.
        destruct H2 as (r0 & Hr0 & Hin).
        destruct (id (row_entry r0) =? id x).
        -- subst r. discriminate Hs.
        -- subst r. exact Hin.
    + apply IH. rewrite sync_entry_run. simpl. rewrite Hx. exact Hc.
Qed.

(** A row of the queue whose create succeeds is in the table when the
    loop ends, with its own entry and the flag set; the loop changed no
    entry of the table. *)
Lemma sync_loop_marks_row w db pre e post response :
  cache w = SqliteCache db ->
  ids_unique (cache w) ->
  select_unsynced (cache w) = pre ++ e :: post ->
  api_create env (requests w ++ map post_of pre) (sync_body e) = Ok response ->
  exists db',
    cache (world_after (sync_loop env (select_unsynced (cache w)) w))
    = SqliteCache db' /\
    In (mkRow e true) (rows db') /\
    map row_entry (rows db') = map row_entry (rows db) /\
    seq db' = seq db.
Proof.
  intros Hc Hu Hsplit Hx.
  pose proof (select_unsynced_unique _ Hu) as Hnd.
  rewrite Hsplit in Hnd. destruct (unique_split _ _ _ Hnd) as [Hpre Hpost].
  assert (He : In e (select_unsynced (cache w))).
  { rewrite Hsplit. apply in_or_app. right. left. reflexivity. }
  destruct (sync_loop_sqlite_entries env (select_unsynced (cache w)) w db Hc)
    as (db' & Hc' & Hent & Hseq).
  exists db'. split; [exact Hc'|]. split; [|split; assumption].
  rewrite Hsplit in Hc'. rewrite sync_loop_app, sync_loop_cons in Hc'.
  destruct (sync_loop_sqlite_entries env pre w db Hc) as (db1 & Hc1 & _).
  assert (He1 : In e (select_unsynced (cache (world_after (sync_loop env pre w)))))
    by (apply sync_loop_keeps_unsynced; assumption).
  rewrite Hc1 in He1. unfold select_unsynced in He1. simpl in He1.
  apply in_map_iff in He1. destruct He1 as (r & Hr & Hin).
  apply filter_In in Hin. destruct Hin as [Hin _].
  destruct (sync_loop_keeps_row env post
              (world_after (sync_entry env e (world_after (sync_loop env pre w))))
              (mark_synced (id e) db1) (mkRow e true)) as (db3 & Hc3 & Hin3).
  - rewrite sync_entry_run. simpl.
    replace (requests (world_after (sync_loop env pre w)))
      with (requests w ++ map post_of pre)
      by (symmetry; apply (sync_loop_frame env pre w)).
    rewrite Hx, Hc1. reflexivity.
  - simpl. apply in_map_iff. exists r. split; [|exact Hin].
    rewrite Hr, Z.eqb_refl. reflexivity.
  - exact Hpost.
  - congruence.
Qed.

(** Such a row is not unsynced when the loop ends. *)
Lemma sync_loop_succeeded_row_marked w db pre e post response :
  cache w = SqliteCache db ->
  ids_unique (cache w) ->
  select_unsynced (cache w) = pre ++ e :: post ->
  api_create env (requests w ++ map post_of pre) (sync_body e) = Ok response ->
  ~ In e (select_unsynced
            (cache (world_after (sync_loop env (select_unsynced (cache w)) w)))).
Proof.
  intros Hc Hu Hsplit Hx.
  destruct (sync_loop_marks_row w db pre e post response Hc Hu Hsplit Hx)
    as (db' & Hc' & Hrow & Hent & _).
  rewrite Hc'. unfold select_unsynced. simpl. intros Hin.
  apply in_map_iff in Hin. destruct Hin as (r & Hr & Hin).
  apply filter_In in Hin. destruct Hin as [Hin Hs].
  assert (r = mkRow e true).
  { apply (NoDup_map_eq (fun r => id (row_entry r)) (rows db')); auto.
    - rewrite <- map_map, Hent, map_map.
      unfold ids_unique in Hu. rewrite Hc in Hu. simpl in Hu.
      rewrite map_map in Hu. exact Hu.
    - simpl. rewrite Hr. reflexivity. }
  subst r. discriminate Hs.
Qed.

(** The refresh keeps a row of the table whose rowid the remote list
    does not hold. *)
Lemma fetchEntries_keeps_row date w db r :
  cache w = SqliteCache db ->
  In r (rows db) ->
  (forall resp,
     api_list env (requests w) (or_selected date (store w)) = Ok resp ->
     ~ In (id (row_entry r)) (map id resp)) ->
  exists db',
    cache (world_after (fetchEntries env date w)) = SqliteCache db' /\
    In r (rows db').
Proof.
  intros Hc Hr Hfresh.
  destruct (api_list env (requests w) (or_selected date (store w))) as [resp|err] eqn:H.
  - rewrite (fetchEntries_success _ _ _ _ H). simpl.
    rewrite Hc, cache_fold_sqlite. eexists. split; [reflexivity|]. simpl.
    apply (upsert_fold_keeps _ _ (fun r => id (row_entry r)) id
             (fun e l => upsert_row (synced_row e) l)).
    + intros e0 l x Hx Hne. apply upsert_row_keeps; assumption.
    + exact Hr.
    + apply Hfresh. reflexivity.
  - rewrite (fetchEntries_failure _ _ _ _ H). simpl. exists db. auto.
Qed.

(** The refresh makes no row unsynced: what is unsynced after it was
    unsynced before. *)
Lemma fetchEntries_unsynced_from date w db e :
  cache w = SqliteCache db ->
  In e (select_unsynced (cache (world_after (fetchEntries env date w)))) ->
  In e (select_unsynced (cache w)).
Proof.
  intros Hc.
  destruct (api_list env (requests w) (or_selected date (store w))) as [resp|err] eqn:H.
  - rewrite (fetchEntries_success _ _ _ _ H). simpl.
    rewrite Hc, cache_fold_sqlite. unfold select_unsynced. simpl. intros Hin.
    apply in_map_iff in Hin. destruct Hin as (r & Hr & Hrin).
    apply filter_In in Hrin. destruct Hrin as [Hrin Hs].
    apply (upsert_fold_from _ _ synced_row
             (fun e l => upsert_row (synced_row e) l)) in Hrin.
    + destruct Hrin as [Hrin|(x & _ & ->)]; [|discriminate Hs].
      apply in_map_iff. exists r. split; [exact Hr|].
      apply filter_In. split; assumption.
    + intros e0 l x Hx. apply upsert_row_from. exact Hx.
  - rewrite (fetchEntries_failure _ _ _ _ H). simpl. intros Hin. exact Hin.
Qed.

End Marked.

(** Three entries queued on SQLite, and a pass at which the remote accepts
    the first and the third create and fails the second: when the server
    numbers what it accepts from 40, rows 1 and 3 are synced after
    [syncOfflineEntries], row 2 alone is still unsynced, and the three
    creates were sent in order. *)
Example three_queued_second_fails :
  flags three_queued = [(1, false); (2, false); (3, false)] /\
  flags (after (syncOfflineEntries second_retry_fails) three_queued)
  = [(1, true); (2, false); (3, true)] /\
  requests (after (syncOfflineEntries second_retry_fails) three_queued) =
    requests three_queued ++
    [PostEntry oatmeal; PostEntry yogurt; PostEntry banana;
     GetEntries day; GetSummary day].
Proof. vm_compute. repeat split; reflexivity. Qed.

(** C8, the code at the failing input. Three entries are queued on SQLite
    under the rowids 1, 2 and 3. At the pass the three creates are sent in
    order; the remote accepts the first and the third and fails the
    second, and the loop leaves row 2 alone unsynced. Rowids and server
    identifiers share the [id] column: the server, empty until then,
    numbered what it accepted 1 and 2, and the refresh that ends the pass
    writes the listed entry 2 over the row the loop left unsynced under
    rowid 2. After [syncOfflineEntries] no row is unsynced and the queued
    yogurt is no longer in the table. *)
Theorem sync_pass_overwrites_failed_row :
  names three_queued_empty_server = [(1, "oatmeal"); (2, "yogurt"); (3, "banana")] /\
  flags three_queued_empty_server = [(1, false); (2, false); (3, false)] /\
  api_create numbers_from_one
    (requests three_queued_empty_server ++ [PostEntry oatmeal]) yogurt
  = Err NetworkError /\
  requests (after (syncOfflineEntries numbers_from_one) three_queued_empty_server) =
    requests three_queued_empty_server ++
    [PostEntry oatmeal; PostEntry yogurt; PostEntry banana;
     GetEntries day; GetSummary day] /\
  flags (world_after (sync_loop numbers_from_one
                        (select_unsynced (cache three_queued_empty_server))
                        three_queued_empty_server))
  = [(1, true); (2, false); (3, true)] /\
  flags (after (syncOfflineEntries numbers_from_one) three_queued_empty_server)
  = [(1, true); (2, true); (3, true)] /\
  names (after (syncOfflineEntries numbers_from_one) three_queued_empty_server)
  = [(1, "oatmeal"); (2, "banana"); (3, "banana")] /\
  select_unsynced
    (cache (after (syncOfflineEntries numbers_from_one) three_queued_empty_server))
  = [].
Proof. vm_compute. repeat split; reflexivity. Qed.

(** ** A pass in which every create succeeds *)

Section AllSucceed.

Variable env : Env.

Lemma sync_loop_all_succeed us w db :
  cache w = SqliteCache db ->
  (forall more body, exists r, api_create env (requests w ++ more) body = Ok r) ->
  cache (world_after (sync_loop env us w)) =
  SqliteCache
    (mkTable
       (map (fun r => if existsb (fun x => id x =? id (row_entry r)) us
                      then mkRow (row_entry r) true else r)
            (rows db))
       (seq db)).
Proof.
  revert w db. induction us as [|x us IH]; intros w db Hc Hok.
  - simpl. rewrite map_id. rewrite Hc. destruct db; reflexivity.
  - rewrite sync_loop_cons.
    destruct (Hok [] (sync_body x)) as (response & Hx). rewrite app_nil_r in Hx.
    rewrite (IH _ (mark_synced (id x) db)).
    + simpl. rewrite map_map. f_equal. f_equal. apply map_ext. intros r.
      rewrite (Z.eqb_sym (id x)).
      destruct (id (row_entry r) =? id x); simpl; [|reflexivity].
      destruct (existsb (fun x0 => id x0 =? id (row_entry r)) us); reflexivity.
    + rewrite sync_entry_run. simpl. rewrite Hx, Hc. reflexivity.
    + intros more body. rewrite sync_entry_run. simpl.
      rewrite <- app_assoc. apply Hok.
Qed.

Lemma no_unsynced_rows db :
  (forall r, In r (rows db) -> synced r = true) ->
  select_unsynced (SqliteCache db) = [].
Proof.
  intros H. unfold select_unsynced. simpl.
  replace (filter (fun r => negb (synced r)) (rows db)) with (@nil Row); [reflexivity|].
  symmetry. induction (rows db) as [|r l IH]; simpl; [reflexivity|].
  rewrite (H r (or_introl eq_refl)). simpl. apply IH.
  intros r' Hr'. apply H. right. exact Hr'.
Qed.

Lemma fetchEntries_keeps_all_synced date w db :
  cache w = SqliteCache db ->
  (forall r, In r (rows db) -> synced r = true) ->
  exists db',
    cache (world_after (fetchEntries env date w)) = SqliteCache db' /\
    forall r, In r (rows db') -> synced r = true.
Proof.
  intros Hc Hall.
  destruct (api_list env (requests w) (or_selected date (store w))) as [resp|err] eqn:H.
  - rewrite (fetchEntries_success _ _ _ _ H). simpl.
    rewrite Hc, cache_fold_sqlite. eexists. split; [reflexivity|]. simpl.
    intros r Hr.
    apply (upsert_fold_from _ _ synced_row
             (fun e l => upsert_row (synced_row e) l)) in Hr.
    + destruct Hr as [Hr|(e & _ & ->)]; [apply Hall; exact Hr|reflexivity].
    + intros e l x Hx. apply upsert_row_from. exact Hx.
  - rewrite (fetchEntries_failure _ _ _ _ H). simpl. exists db. auto.
Qed.

End AllSucceed.

(** C3, as the code has it on SQLite. Once the remote create for a row of
    the queue succeeds, the pass marks that row synced in place.
    - After the loop the row is in the table under the rowid it had, with
      its own fields and creation timestamp and the [synced] flag set; the
      loop wrote the entry the server returned nowhere, the entries of the
      table are what they were.
    - The refresh that ends the pass keeps the row so, whenever the list
      it gets holds no entry under that rowid (or the list call fails).
    - In any case the row is not unsynced after [syncOfflineEntries].
    - After a pass in which every create succeeds, no row of the table is
      unsynced. *)
Theorem sync_marks_rows_in_place env w db :
  cache w = SqliteCache db ->
  ids_unique (cache w) ->
  let unsynced := select_unsynced (cache w) in
  let w1 := world_after (sync_loop env unsynced w) in
  let w' := world_after (syncOfflineEntries env w) in
  (forall pre e post response,
     unsynced = pre ++ e :: post ->
     api_create env (requests w ++ map post_of pre) (sync_body e) = Ok response ->
     (exists db1,
        cache w1 = SqliteCache db1 /\
        In (mkRow e true) (rows db1) /\
        map row_entry (rows db1) = map row_entry (rows db)) /\
     ((forall resp,
         api_list env (requests w ++ map post_of unsynced) (selectedDate (store w))
         = Ok resp ->
         ~ In (id e) (map id resp)) ->
      exists db',
        cache w' = SqliteCache db' /\ In (mkRow e true) (rows db')) /\
     ~ In e (select_unsynced (cache w'))) /\
  ((forall more body, exists r, api_create env (requests w ++ more) body = Ok r) ->
   select_unsynced (cache w') = []).
Proof.
  intros Hc Hu unsynced w1 w'.
  assert (Hw' : cache w' = cache (world_after (fetchEntries env None w1))).
  { subst w' w1 unsynced. rewrite syncOfflineEntries_run, fetchSummary_run.
    reflexivity. }
  destruct (sync_loop_frame env unsynced w) as (_ & Hreq & Hst & _).
  fold w1 in Hreq, Hst.
  split.
  - intros pre e post response Hsplit Hx.
    destruct (sync_loop_marks_row env w db pre e post response Hc Hu Hsplit Hx)
      as (db1 & Hc1 & Hrow & Hent & _).
    fold unsynced in Hc1. fold w1 in Hc1.
    split; [exists db1; auto|]. split.
    + intros Hfresh. rewrite Hw'.
      apply (fetchEntries_keeps_row env None w1 db1 (mkRow e true) Hc1 Hrow).
      intros resp Hl. simpl. apply Hfresh.
      rewrite <- Hreq, <- Hst. exact Hl.
    + rewrite Hw'. intros Hin.
      apply (fetchEntries_unsynced_from env None w1 db1 e Hc1) in Hin.
      revert Hin.
      apply (sync_loop_succeeded_row_marked env w db pre e post response);
        assumption.
  - intros Hok. rewrite Hw'.
    assert (Hloop :
      cache w1 =
      SqliteCache
        (mkTable (map (fun r => mkRow (row_entry r) true) (rows db)) (seq db))).
    { subst w1 unsynced.
      rewrite (sync_loop_all_succeed env _ w db Hc Hok). f_equal. f_equal.
      apply map_ext_in. intros r Hr.
      destruct (existsb (fun x => id x =? id (row_entry r)) (select_unsynced (cache w)))
        eqn:Hex; [reflexivity|].
      destruct r as [e [|]]; [reflexivity|]. exfalso.
      assert (Hin : existsb (fun x => id x =? id e) (select_unsynced (cache w)) = true).
      { apply existsb_exists. exists e. split; [|apply Z.eqb_refl].
        rewrite Hc. unfold select_unsynced. simpl.
        apply in_map_iff. exists (mkRow e false). split; [reflexivity|].
        apply filter_In. split; [exact Hr|reflexivity]. }
      simpl in Hex. congruence. }
    destruct (fetchEntries_keeps_all_synced env None _ _ Hloop) as (db' & Hc' & Hall).
    + simpl. intros r Hr. apply in_map_iff in Hr.
      destruct Hr as (r0 & <- & _). reflexivity.
    + rewrite Hc'. apply no_unsynced_rows. exact Hall.
Qed.

(** ** The theorems at work on the scenarios *)

(** C9 at work: offline, the next day selected, the entry queued the day
    before in the table. Asked for the day before, [fetchEntries] lists
    that entry; asked for no date, it lists nothing. *)
Lemma fetchEntries_falls_back_to_cache_witness :
  selectedDate (store queued_next_day) = next_day /\
  api_list offline (requests queued_next_day) day = Err NetworkError /\
  entries (store (world_after (fetchEntries offline (Some day) queued_next_day)))
  = [queued 1 oatmeal "2024-05-01T12:00:00.000Z"] /\
  entries (store (world_after (fetchEntries offline None queued_next_day))) = [].
Proof.
  split; [reflexivity|]. split; [reflexivity|].
  destruct (fetchEntries_falls_back_to_cache offline (Some day) queued_next_day
              NetworkError eq_refl) as (_ & _ & H & _).
  destruct (fetchEntries_falls_back_to_cache offline None queued_next_day
              NetworkError eq_refl) as (_ & _ & H0 & _).
  split; [rewrite H|rewrite H0]; reflexivity.
Defined.

(** C4 at work: the first create of the day fails, on SQLite. *)
Lemma addEntry_failure_caches_then_rejects_witness :
  api_create offline (requests sqlite_start) oatmeal = Err NetworkError /\
  outcome (addEntry offline oatmeal sqlite_start) = Err NetworkError /\
  exists db',
    cache (world_after (addEntry offline oatmeal sqlite_start)) = SqliteCache db' /\
    In (mkRow (queued 1 oatmeal "2024-05-01T12:00:00.000Z") false) (rows db').
Proof.
  split; [reflexivity|].
  destruct (addEntry_failure_caches_then_rejects offline oatmeal sqlite_start
              NetworkError eq_refl eq_refl eq_refl eq_refl eq_refl)
    as (H1 & _ & _ & _ & db' & Hc & Hin & _).
  split; [exact H1|]. exists db'. split; [exact Hc|exact Hin].
Defined.

(** C4 refuted as stated. The device is not web and has no database: the
    create fails, [addEntry] rejects with the error, and the draft is
    cached nowhere, the cache holds no entry afterwards and a read of the
    day returns nothing. And on web a draft whose calories are [Infinity]
    is read back from the cache with [null] calories. *)
Lemma addEntry_failure_without_database :
  api_create offline (requests native_start) oatmeal = Err NetworkError /\
  outcome (addEntry offline oatmeal native_start) = Err NetworkError /\
  cache (world_after (addEntry offline oatmeal native_start)) = NoCache /\
  getCachedEntries_cache offline day
    (cache (world_after (addEntry offline oatmeal native_start))) = [] /\
  ~ (exists e,
       In e (cache_entries (cache (world_after (addEntry offline oatmeal native_start))))
       /\ food_name e = Draft.food_name oatmeal) /\
  Draft.calories feast = Number PrimFloat.infinity /\
  is_a_number (Draft.calories feast) = true /\
  map calories
    (cache_entries (cache (world_after (addEntry offline feast web_start))))
  = [Null].
Proof.
  split; [reflexivity|]. split; [reflexivity|]. split; [reflexivity|].
  split; [reflexivity|]. split; [|split; [|split]; reflexivity].
  intros (e & He & _). exact He.
Qed.

(** The same failure on the two backends, in full. *)
Example addEntry_offline_sqlite :
  addEntry offline oatmeal sqlite_start =
  (Err NetworkError,
   mkWorld fresh_store (SqliteCache one_queued) [PostEntry oatmeal] 2).
Proof. vm_compute. reflexivity. Qed.

Example addEntry_offline_web :
  addEntry offline oatmeal web_start =
  (Err NetworkError,
   mkWorld fresh_store
     (WebCache (JSON_stringify
        [entryToCache noon oatmeal "2024-05-01T12:00:00.000Z"]))
     [PostEntry oatmeal] 2).
Proof. vm_compute. reflexivity. Qed.


(** Two remote entries and one queued entry of the same day make three
    cached entries of that day, on both backends. *)
Example two_listed_one_queued_make_three :
  map id (getCachedEntries_cache offline_then_listed day
            (cache (after (fetchEntries offline_then_listed (Some day))
                      queued_then_listed)))
  = [7; 8; 1] /\
  map id (getCachedEntries_cache offline_then_listed day
            (cache (after (fetchEntries offline_then_listed (Some day))
                      queued_then_listed_web)))
  = [7; 8; noon].
Proof. vm_compute. split; reflexivity. Qed.


(** C3 at work: the entry queued by a failed [addEntry], then a pass in
    which the remote accepts its create as entry 41 and lists that entry:
    the row is still there under rowid 1, synced. *)
Lemma sync_marks_rows_in_place_witness :
  cache queued_before_recovery = SqliteCache one_queued /\
  ids_unique (cache queued_before_recovery) /\
  exists db',
    cache (world_after (syncOfflineEntries recovers_after_one queued_before_recovery))
    = SqliteCache db' /\
    In (mkRow (queued 1 oatmeal "2024-05-01T12:00:00.000Z") true) (rows db').
Proof.
  assert (Hc : cache queued_before_recovery = SqliteCache one_queued) by reflexivity.
  assert (Hu : ids_unique (cache queued_before_recovery)).
  { unfold ids_unique. vm_compute. constructor; [intros []|constructor]. }
  split; [exact Hc|]. split; [exact Hu|].
  apply (proj1 (proj2
           (proj1 (sync_marks_rows_in_place recovers_after_one
                     queued_before_recovery one_queued Hc Hu)
              [] (queued 1 oatmeal "2024-05-01T12:00:00.000Z") []
              (server_entry 41 oatmeal) eq_refl eq_refl))).
  intros resp Hl. vm_compute in Hl. injection Hl as <-.
  simpl. intros [H|[]]. discriminate H.
Defined.

(** C3 refuted as stated. The create of the queued entry succeeds and the
    server returns entry 41, yet the row keeps rowid 1 and its device
    timestamp; the refresh then adds entry 41 as a second row. The claim
    has the table hold the returned entry in place of the queued row. *)
Lemma sync_keeps_placeholder_identifier :
  select_unsynced (cache queued_before_recovery)
  = [queued 1 oatmeal "2024-05-01T12:00:00.000Z"] /\
  api_create recovers_after_one (requests queued_before_recovery)
    (sync_body (queued 1 oatmeal "2024-05-01T12:00:00.000Z"))
  = Ok (server_entry 41 oatmeal) /\
  exists db',
    cache (after (syncOfflineEntries recovers_after_one) queued_before_recovery)
    = SqliteCache db' /\
    rows db' = [mkRow (queued 1 oatmeal "2024-05-01T12:00:00.000Z") true;
                synced_row (server_entry 41 oatmeal)] /\
    rows db' <> [synced_row (server_entry 41 oatmeal)].
Proof.
  split; [reflexivity|]. split; [reflexivity|].
  eexists. split; [vm_compute; reflexivity|].
  split; [reflexivity|].
  intros H. discriminate H.
Qed.

(** C5 refuted as stated. Rowid 1 is the queued entry of a failed
    [addEntry]; [deleteEntry 1] sends the remote delete (the server knows
    no such entry and answers 404) and the row is still in the table. *)
Lemma deleteEntry_pending_calls_remote :
  select_unsynced (cache queued_before_recovery)
  = [queued 1 oatmeal "2024-05-01T12:00:00.000Z"] /\
  outcome (deleteEntry recovers_after_one 1 queued_before_recovery)
  = Err (HttpError 404) /\
  requests (world_after (deleteEntry recovers_after_one 1 queued_before_recovery))
  = requests queued_before_recovery ++ [DeleteEntry 1] /\
  cache (world_after (deleteEntry recovers_after_one 1 queued_before_recovery))
  = cache queued_before_recovery /\
  ~ (requests (world_after (deleteEntry recovers_after_one 1 queued_before_recovery))
     = requests queued_before_recovery /\
     ~ In 1 (map id (cache_entries
                (cache (world_after
                   (deleteEntry recovers_after_one 1 queued_before_recovery)))))).
Proof.
  split; [reflexivity|]. split; [reflexivity|]. split; [reflexivity|].
  split; [reflexivity|].
  intros [H _]. vm_compute in H. discriminate H.
Qed.

(** C6 refuted as stated. Entry 7 was created online and cached; the
    remote delete succeeds, the entry leaves the store, and its row is
    still in the cache, on both backends. *)
Lemma deleteEntry_success_keeps_cached_row :
  api_delete accepts_then_fails_once (requests confirmed_sqlite) 7 = Ok tt /\
  outcome (deleteEntry accepts_then_fails_once 7 confirmed_sqlite) = Ok tt /\
  entries (store confirmed_sqlite) = [server_entry 7 oatmeal] /\
  entries (store (world_after (deleteEntry accepts_then_fails_once 7 confirmed_sqlite)))
  = [] /\
  cache (world_after (deleteEntry accepts_then_fails_once 7 confirmed_sqlite))
  = SqliteCache (mkTable [synced_row (server_entry 7 oatmeal)] 7) /\
  cache (world_after (deleteEntry accepts_then_fails_once 7 confirmed_web))
  = WebCache (JSON_stringify [server_entry 7 oatmeal]) /\
  ~ (outcome (deleteEntry accepts_then_fails_once 7 confirmed_sqlite) = Ok tt ->
     ~ In 7 (map id (cache_entries
                (cache (world_after
                   (deleteEntry accepts_then_fails_once 7 confirmed_sqlite)))))).
Proof.
  split; [reflexivity|]. split; [reflexivity|]. split; [reflexivity|].
  split; [reflexivity|]. split; [vm_compute; reflexivity|].
  split; [vm_compute; reflexivity|].
  intros H. apply H; [reflexivity|]. vm_compute. left. reflexivity.
Qed.

(** C7 refuted as stated. The remote summary is fetched once, with the
    goals 2500, 180, 300 and 80 of the user; at the next call the remote
    fails and the summary of the store has the constants 2000, 150, 200
    and 65 for goals, not the goals fetched before. *)
Lemma fetchSummary_forgets_remote_goals :
  summary (store summary_fetched) = Some remote_summary /\
  api_summary summary_once (requests summary_fetched) day = Err NetworkError /\
  exists s,
    summary (store (after (fetchSummary summary_once (Some day)) summary_fetched))
    = Some s /\
    (MacroSummary.calorie_goal s, MacroSummary.protein_goal s,
     MacroSummary.carb_goal s, MacroSummary.fat_goal s) =
      (2000%float, 150%float, 200%float, 65%float) /\
    MacroSummary.calorie_goal s <> MacroSummary.calorie_goal remote_summary.
Proof.
  split; [reflexivity|]. split; [reflexivity|].
  eexists. split; [vm_compute; reflexivity|]. split; [reflexivity|].
  simpl. intros H.
  apply (f_equal (fun x => PrimFloat.ltb x 2250%float)) in H.
  vm_compute in H. discriminate H.
Qed.

(** The fallback totals: entries of 300 and 250 calories in the store and
    a failing remote give 550 calories and the constant goals. *)
Example fallback_summary_adds_up :
  requests entries_fetched = [GetEntries day] /\
  map calories (entries (store entries_fetched)) = [Number 300%float; Number 250%float] /\
  summary (store (after (fetchSummary summary_once (Some day)) entries_fetched)) =
    Some (MacroSummary.mk day 550%float 30%float 84%float 9%float
            2000%float 150%float 200%float 65%float).
Proof. vm_compute. repeat split; reflexivity. Qed.

(** The fallback does not look at dates: asked for another day, it adds
    the entries the store holds for this one. *)
Example fallback_summary_ignores_dates :
  map entry_date (entries (store entries_fetched)) = [day; day] /\
  summary (store (after (fetchSummary summary_once (Some "2024-05-02")) entries_fetched)) =
    Some (MacroSummary.mk "2024-05-02" 550%float 30%float 84%float 9%float
            2000%float 150%float 200%float 65%float).
Proof. vm_compute. split; reflexivity. Qed.

(** ** The web queue is chosen by the size of the identifier *)

(** On web a cached entry is taken for unsynced exactly when its
    identifier is below 1000000000000. *)
Lemma web_select_by_magnitude items e :
  In e (select_unsynced (WebCache items)) <->
  In e (cache_entries (WebCache items)) /\ id e < 1000000000000.
Proof.
  unfold select_unsynced. simpl. rewrite filter_In.
  split; intros [H1 H2]; split; auto.
  - apply orb_true_iff in H2. destruct H2 as [H2|H2].
    + apply Z.eqb_eq in H2. lia.
    + apply Z.ltb_lt in H2. exact H2.
  - apply orb_true_iff. right. apply Z.ltb_lt. exact H2.
Qed.

(** C2, the code at the failing input. On web, oatmeal was created online
    as entry 7 and yogurt was queued offline under [Date.now()]. The pass
    takes the confirmed entry 7 for unsynced and creates it again (the
    server makes entry 9 of it), and never sends the queued yogurt. *)
Theorem web_sync_resubmits_confirmed :
  cache confirmed_and_queued_web =
    WebCache (JSON_stringify
                [server_entry 7 oatmeal;
                 entryToCache noon yogurt "2024-05-01T12:00:00.000Z"]) /\
  select_unsynced (cache confirmed_and_queued_web) = [server_entry 7 oatmeal] /\
  requests (after (syncOfflineEntries accepts_then_fails_once) confirmed_and_queued_web)
  = requests confirmed_and_queued_web ++
    [PostEntry oatmeal; GetEntries day; GetSummary day] /\
  cache (after (syncOfflineEntries accepts_then_fails_once) confirmed_and_queued_web)
  = WebCache (JSON_stringify
                [server_entry 9 oatmeal;
                 entryToCache noon yogurt "2024-05-01T12:00:00.000Z"]).
Proof. vm_compute. repeat split; reflexivity. Qed.

(** C10, the code at the failing input. The same draft is added twice
    while the remote fails: the cache gets two rows, with identifiers of
    their own. On SQLite the next pass creates both. On web the pass sends
    no create at all and the two rows stay as they are. *)
Theorem web_sync_never_sends_queued_entries :
  cache queued_twice_web =
    WebCache (JSON_stringify
                [entryToCache noon oatmeal "2024-05-01T12:00:00.000Z";
                 entryToCache (noon + 4000) oatmeal "2024-05-01T12:00:04.000Z"]) /\
  flags queued_twice_sqlite = [(1, false); (2, false)] /\
  requests (after (syncOfflineEntries recovers_after_two) queued_twice_sqlite)
  = requests queued_twice_sqlite ++
    [PostEntry oatmeal; PostEntry oatmeal; GetEntries day; GetSummary day] /\
  select_unsynced (cache queued_twice_web) = [] /\
  requests (after (syncOfflineEntries recovers_after_two) queued_twice_web)
  = requests queued_twice_web ++ [GetEntries day; GetSummary day] /\
  cache (after (syncOfflineEntries recovers_after_two) queued_twice_web)
  = cache queued_twice_web.
Proof. vm_compute. repeat split; reflexivity. Qed.

(** * More of the store: what the actions keep and how they compose *)

(** ** Caching the same entry twice *)

Lemma findIndex_first {A} (p : A -> bool) l i y :
  findIndex p l = Some i -> p y = true -> findIndex p (assign i y l) = Some i.
Proof.
  revert i. induction l as [|z l IH]; simpl; intros i Hi Hy.
  - discriminate.
  - destruct (p z) eqn:Hz.
    + injection Hi as <-. simpl. rewrite Hy. reflexivity.
    + destruct (findIndex p l) as [j|] eqn:Hj; [|discriminate].
      injection Hi as <-. simpl. rewrite Hz, (IH j eq_refl Hy). reflexivity.
Qed.

Lemma assign_over {A} i (y z : A) l : assign i y (assign i z l) = assign i y l.
Proof.
  revert i. induction l as [|x l IH]; intros [|i]; simpl; try reflexivity.
  rewrite IH. reflexivity.
Qed.

Lemma findIndex_pushed {A} (p : A -> bool) l y z :
  findIndex p l = None -> p z = true ->
  findIndex p (l ++ [z]) = Some (List.length l) /\
  assign (List.length l) y (l ++ [z]) = l ++ [y].
Proof.
  induction l as [|x l IH]; simpl; intros Hn Hz.
  - rewrite Hz. split; reflexivity.
  - destruct (p x); [discriminate|].
    destruct (findIndex p l); [discriminate|].
    destruct (IH eq_refl Hz) as [H1 H2]. rewrite H1, H2. split; reflexivity.
Qed.

(** Upserting over an entry of the same identifier that was just upserted
    gives what upserting alone gives. *)
Lemma web_upsert_over e e' l :
  id e' = id e -> web_upsert e (web_upsert e' l) = web_upsert e l.
Proof.
  intros Hid. unfold web_upsert at 2 3. rewrite Hid.
  destruct (findIndex (fun x => id x =? id e) l) as [i|] eqn:Hi.
  - unfold web_upsert.
    rewrite (findIndex_first _ _ _ e' Hi); [apply assign_over|].
    rewrite Hid. apply Z.eqb_refl.
  - unfold web_upsert.
    destruct (findIndex_pushed (fun x => id x =? id e) l e e' Hi) as [H1 H2].
    + rewrite Hid. apply Z.eqb_refl.
    + rewrite H1. exact H2.
Qed.

Lemma web_upsert_twice e l : web_upsert e (web_upsert e l) = web_upsert e l.
Proof. apply web_upsert_over. reflexivity. Qed.

Lemma upsert_row_twice r l : upsert_row r (upsert_row r l) = upsert_row r l.
Proof.
  induction l as [|x l IH]; simpl.
  - rewrite Z.ltb_irrefl, Z.eqb_refl. reflexivity.
  - destruct (rowid r <? rowid x) eqn:Hlt; unfold rowid in Hlt; rewrite Hlt.
    + simpl. rewrite Z.ltb_irrefl, Z.eqb_refl. reflexivity.
    + destruct (id (row_entry r) =? id (row_entry x)) eqn:Heq.
      * simpl. rewrite Z.ltb_irrefl, Z.eqb_refl. reflexivity.
      * simpl. rewrite Hlt, Heq, IH. reflexivity.
Qed.

(** X1. Caching an entry that was just cached changes nothing: a second
    [cacheEntryLocally] of the same entry leaves the world as the first
    left it, on every backend. *)
Theorem cacheEntryLocally_idempotent entry w :
  world_after (cacheEntryLocally entry (world_after (cacheEntryLocally entry w))) =
  world_after (cacheEntryLocally entry w).
Proof.
  unfold cacheEntryLocally, update_cache, world_after. simpl. f_equal.
  destruct (cache w) as [[items]|db|].
  - rewrite !cacheEntryLocally_web. f_equal. f_equal.
    rewrite json_web_upsert, map_json_idem.
    apply web_upsert_over. reflexivity.
  - unfold cacheEntryLocally_cache. simpl. unfold insert_or_replace. simpl.
    rewrite upsert_row_twice. f_equal. f_equal. lia.
  - reflexivity.
Qed.

(** ** The order of the cached entries *)

Lemma insert_sorted_sorted {A} (before : A -> A -> bool) x l :
  (forall a b, before a b = false -> before b a = true) ->
  Sorted (fun a b => before a b = true) l ->
  Sorted (fun a b => before a b = true) (insert_sorted before x l).
Proof.
  intros Htot. induction l as [|y l IH]; simpl; intros Hs.
  - constructor; constructor.
  - destruct (before x y) eqn:Hxy.
    + constructor; [exact Hs|]. constructor. exact Hxy.
    + inversion Hs as [|? ? Hl Hhd]; subst.
      constructor; [apply IH; exact Hl|].
      destruct l as [|z l]; simpl.
      * constructor. apply Htot. exact Hxy.
      * destruct (before x z).
        -- constructor. apply Htot. exact Hxy.
        -- inversion Hhd; subst. constructor. assumption.
Qed.

Lemma stable_sort_sorted {A} (before : A -> A -> bool) l :
  (forall a b, before a b = false -> before b a = true) ->
  Sorted (fun a b => before a b = true) (stable_sort before l).
Proof.
  intros Htot. induction l as [|x l IH]; simpl.
  - constructor.
  - apply insert_sorted_sorted; assumption.
Qed.

Lemma Sorted_weaken {A} (R S : A -> A -> Prop) l :
  (forall a b, R a b -> S a b) -> Sorted R l -> Sorted S l.
Proof.
  intros H. induction 1 as [|a l Hs IH Hhd]; constructor; auto.
  destruct Hhd; constructor; auto.
Qed.

(** X3. [getCachedEntries] returns the cached entries of the date asked,
    all of them and nothing else, the most recently created first (by
    parsed time on web, by the timestamp text on SQLite); without a
    database it returns the empty list. *)
Theorem getCachedEntries_newest_first env date c :
  Sorted (newest_first env c) (getCachedEntries_cache env date c) /\
  Permutation (getCachedEntries_cache env date c)
    (filter (on_date date) (cache_entries c)) /\
  (forall e, In e (getCachedEntries_cache env date c) <->
             In e (cache_entries c) /\ entry_date e = date) /\
  (c = NoCache -> getCachedEntries_cache env date c = []).
Proof.
  assert (P := getCachedEntries_perm env date c).
  split; [|split; [exact P|split]].
  - destruct c as [[items]|db|]; unfold newest_first; simpl.
    + eapply Sorted_weaken; [|apply stable_sort_sorted].
      * intros a b H. apply Z.leb_le in H. lia.
      * intros a b H. apply Z.leb_gt in H. apply Z.leb_le. lia.
    + apply stable_sort_sorted.
      intros a b H. destruct (String.leb_total (created_at b) (created_at a)); congruence.
    + constructor.
  - intros e. split.
    + intros H. apply (Permutation_in _ P) in H. apply filter_In in H.
      destruct H as [H1 H2]. split; [exact H1|]. apply String.eqb_eq. exact H2.
    + intros [H1 H2]. apply (Permutation_in _ (Permutation_sym P)).
      apply filter_In. split; [exact H1|]. apply String.eqb_eq. exact H2.
  - intros ->. reflexivity.
Qed.

(** ** The table stays well formed *)

Lemma sorted_unique l :
  StronglySorted (fun a b => rowid a < rowid b) l -> NoDup (map rowid l).
Proof.
  induction 1 as [|a l Hs IH Hall]; simpl; constructor; auto.
  intros Hin. apply in_map_iff in Hin. destruct Hin as (b & Hb & Hbin).
  rewrite Forall_forall in Hall. specialize (Hall b Hbin). lia.
Qed.

Lemma cache_ok_unique c : cache_ok c -> forall t, c = SqliteCache t -> ids_unique c.
Proof.
  intros Hok t ->. unfold ids_unique. simpl. rewrite map_map.
  apply sorted_unique. apply Hok.
Qed.

Lemma upsert_row_sorted r l :
  StronglySorted (fun a b => rowid a < rowid b) l ->
  StronglySorted (fun a b => rowid a < rowid b) (upsert_row r l).
Proof.
  induction 1 as [|x l Hs IH Hall]; simpl.
  - constructor; constructor.
  - fold (rowid r) (rowid x).
    destruct (Z.ltb_spec (rowid r) (rowid x)) as [Hlt|Hge].
    + constructor; [constructor; assumption|].
      constructor; [exact Hlt|].
      eapply Forall_impl; [|exact Hall]. simpl. intros b Hb. lia.
    + destruct (Z.eqb_spec (rowid r) (rowid x)) as [Heq|Hne].
      * constructor; [exact Hs|].
        eapply Forall_impl; [|exact Hall]. simpl. intros b Hb. lia.
      * constructor; [exact IH|].
        apply Forall_forall. intros b Hb.
        apply upsert_row_from in Hb. destruct Hb as [->|Hb]; [lia|].
        rewrite Forall_forall in Hall. apply Hall. exact Hb.
Qed.

Lemma insert_or_replace_ok r t : table_ok t -> table_ok (insert_or_replace r t).
Proof.
  intros [Hs Hb]. split; simpl.
  - apply upsert_row_sorted. exact Hs.
  - apply Forall_forall. intros x Hx. fold (rowid r).
    apply upsert_row_from in Hx. destruct Hx as [->|Hx]; [lia|].
    rewrite Forall_forall in Hb. specialize (Hb x Hx). lia.
Qed.

(** On a well-formed table AUTOINCREMENT gives the counter plus one. *)
Lemma next_rowid_ok t : table_ok t -> next_rowid t = seq t + 1.
Proof.
  intros [_ Hb]. unfold next_rowid. f_equal.
  fold rowid. revert Hb. generalize (seq t) as s. generalize (rows t) as l.
  induction l as [|x l IH]; simpl; intros s Hb.
  - reflexivity.
  - inversion Hb as [|? ? Hx Hl]; subst.
    replace (Z.max s (rowid x)) with s by lia. apply IH. exact Hl.
Qed.

Lemma insert_unsynced_ok e t : table_ok t -> table_ok (insert_unsynced e t).
Proof.
  intros Hok. pose proof Hok as [Hs Hb]. unfold insert_unsynced. split; simpl.
  - apply upsert_row_sorted. exact Hs.
  - apply Forall_forall. intros x Hx.
    apply upsert_row_from in Hx. destruct Hx as [->|Hx].
    + unfold rowid. simpl. lia.
    + pose proof (next_rowid_fresh t x Hx). unfold rowid. lia.
Qed.

Lemma mark_synced_ok i t : table_ok t -> table_ok (mark_synced i t).
Proof.
  intros [Hs Hb]. unfold mark_synced. split; simpl.
  - revert Hs. generalize (rows t) as l.
    induction 1 as [|x l Hs IH Hall]; simpl; constructor; auto.
    apply Forall_forall. intros b Hb'. apply in_map_iff in Hb'.
    destruct Hb' as (b0 & <- & Hin). rewrite Forall_forall in Hall.
    specialize (Hall b0 Hin).
    destruct (id (row_entry x) =? i), (id (row_entry b0) =? i); exact Hall.
  - apply Forall_forall. intros b Hb'. apply in_map_iff in Hb'.
    destruct Hb' as (b0 & <- & Hin). rewrite Forall_forall in Hb.
    specialize (Hb b0 Hin). destruct (id (row_entry b0) =? i); exact Hb.
Qed.

Lemma cacheEntryLocally_ok e c : cache_ok c -> cache_ok (cacheEntryLocally_cache e c).
Proof.
  destruct c as [[items]|db|]; simpl; intros H.
  - rewrite cacheEntryLocally_web. exact I.
  - apply insert_or_replace_ok. exact H.
  - exact I.
Qed.

Lemma cache_fold_ok resp c :
  cache_ok c -> cache_ok (fold_left (fun c e => cacheEntryLocally_cache e c) resp c).
Proof.
  revert c. induction resp as [|e resp IH]; simpl; intros c H; auto.
  apply IH. apply cacheEntryLocally_ok. exact H.
Qed.

Lemma cacheEntry_cache_ok e c : cache_ok c -> cache_ok (cacheEntry_cache e c).
Proof.
  destruct c as [[items]|db|]; simpl; intros H; try exact I.
  apply insert_unsynced_ok. exact H.
Qed.

Lemma confirm_cache_ok e r c : cache_ok c -> cache_ok (confirm_cache e r c).
Proof.
  destruct c as [[items]|db|]; simpl; intros H.
  - unfold confirm_cache. simpl.
    destruct (findIndex (fun e0 => id e0 =? id e) (map json_entry items)); exact I.
  - apply mark_synced_ok. exact H.
  - exact I.
Qed.

Lemma addEntry_success env entry w r :
  api_create env (requests w) entry = Ok r ->
  addEntry env entry w =
  (Ok tt,
   mkWorld
     (with_summary
        match api_summary env (requests w ++ [PostEntry entry])
                (selectedDate (store w)) with
        | Ok response => response
        | Err _ => local_summary (selectedDate (store w))
                     (local_totals (r :: entries (store w)))
        end
        (with_entries (r :: entries (store w)) (store w)))
     (cacheEntryLocally_cache r (cache w))
     (requests w ++ [PostEntry entry; GetSummary (selectedDate (store w))])
     (clock_reads w)).
Proof.
  intros H. unfold addEntry, try_catch, bind, api_post_entry, set. simpl.
  rewrite H. simpl. rewrite fetchSummary_run. simpl.
  unfold cacheEntryLocally, update_cache. simpl.
  rewrite <- app_assoc. reflexivity.
Qed.

Section Invariant.

Variable env : Env.

Lemma fetchEntries_ok date w :
  cache_ok (cache w) -> cache_ok (cache (world_after (fetchEntries env date w))).
Proof.
  intros H.
  destruct (api_list env (requests w) (or_selected date (store w))) as [resp|err] eqn:E.
  - rewrite (fetchEntries_success _ _ _ _ E). simpl. apply cache_fold_ok. exact H.
  - rewrite (fetchEntries_failure _ _ _ _ E). simpl. exact H.
Qed.

Lemma sync_loop_ok us w :
  cache_ok (cache w) -> cache_ok (cache (world_after (sync_loop env us w))).
Proof.
  revert w. induction us as [|x us IH]; intros w H.
  - exact H.
  - rewrite sync_loop_cons. apply IH. rewrite sync_entry_run. simpl.
    destruct (api_create env (requests w) (sync_body x)); [|exact H].
    apply confirm_cache_ok. exact H.
Qed.

End Invariant.

(** X2. Every action of the store keeps the SQLite table well formed,
    whatever the remote answers: the rows stay in strictly ascending rowid
    order under a counter that no rowid exceeds. So the identifiers of the
    table are unique after any action, and the rowid of the next queued
    entry is the counter plus one. *)
Theorem actions_keep_table_well_formed env w :
  cache_ok (cache w) ->
  (forall date, cache_ok (cache (world_after (fetchEntries env date w)))) /\
  (forall date, cache_ok (cache (world_after (fetchSummary env date w)))) /\
  (forall entry, cache_ok (cache (world_after (addEntry env entry w)))) /\
  (forall entry_id, cache_ok (cache (world_after (deleteEntry env entry_id w)))) /\
  (forall entry, cache_ok (cache (world_after (cacheEntry env entry w)))) /\
  cache_ok (cache (world_after (syncOfflineEntries env w))) /\
  (forall t, cache w = SqliteCache t ->
     ids_unique (cache w) /\ next_rowid t = seq t + 1).
Proof.
  intros H.
  split; [|split; [|split; [|split; [|split; [|split; [|intros t Ht; split]]]]]].
  - intros date. apply fetchEntries_ok. exact H.
  - intros date. rewrite fetchSummary_run. exact H.
  - intros entry.
    destruct (api_create env (requests w) entry) as [r|err] eqn:E.
    + rewrite (addEntry_success _ _ _ _ E). simpl.
      apply cacheEntryLocally_ok. exact H.
    + rewrite (addEntry_failure _ _ _ _ E). simpl.
      apply cacheEntry_cache_ok. exact H.
  - intros entry_id. rewrite deleteEntry_run.
    destruct (api_delete env (requests w) entry_id) as [[]|err].
    + rewrite fetchSummary_run. exact H.
    + exact H.
  - intros entry. rewrite cacheEntry_run. simpl.
    apply cacheEntry_cache_ok. exact H.
  - rewrite syncOfflineEntries_run, fetchSummary_run. simpl.
    apply fetchEntries_ok. apply sync_loop_ok. exact H.
  - apply (cache_ok_unique _ H t). exact Ht.
  - apply next_rowid_ok. rewrite Ht in H. exact H.
Qed.

(** ** What the cache gives back after a write *)

Lemma or_selected_some d st : d <> "" -> or_selected (Some d) st = d.
Proof.
  intros H. unfold or_selected, or_null.
  destruct (String.eqb_spec d ""); [contradiction|reflexivity].
Qed.

Lemma cached_is_listed env date c e :
  In e (cache_entries c) -> entry_date e = date ->
  In e (getCachedEntries_cache env date c).
Proof.
  intros H1 H2.
  apply (Permutation_in _ (Permutation_sym (getCachedEntries_perm env date c))).
  apply filter_In. split; [exact H1|]. apply String.eqb_eq. exact H2.
Qed.

Lemma cacheEntryLocally_cached e c :
  c <> NoCache -> In (as_cached c e) (cache_entries (cacheEntryLocally_cache e c)).
Proof.
  destruct c as [[items]|db|]; intros H; [| |contradiction].
  - rewrite cacheEntryLocally_web. simpl. apply in_map. apply web_upsert_in.
  - simpl. apply in_map_iff. exists (synced_row e). split; [reflexivity|].
    apply upsert_row_in.
Qed.

Lemma as_cached_date c e : entry_date (as_cached c e) = entry_date e.
Proof. destruct c; reflexivity. Qed.

(** X4. An entry added online is there offline. When the remote create
    succeeds, [addEntry] resolves, puts the returned entry at the head of
    the entries of the store, refreshes the summary for the selected date
    and caches the entry without reading the clock; if the list call for
    the date of that entry then fails, [fetchEntries] lists the entry from
    the cache (on SQLite with [NULL] for an empty optional string). *)
Theorem addEntry_online_then_listed_offline env entry w r err :
  api_create env (requests w) entry = Ok r ->
  cache w <> NoCache ->
  entry_date r <> "" ->
  let w1 := world_after (addEntry env entry w) in
  api_list env (requests w1) (entry_date r) = Err err ->
  outcome (addEntry env entry w) = Ok tt /\
  entries (store w1) = r :: entries (store w) /\
  requests w1 = requests w ++ [PostEntry entry; GetSummary (selectedDate (store w))] /\
  clock_reads w1 = clock_reads w /\
  In (as_cached (cache w) r)
     (entries (store (world_after (fetchEntries env (Some (entry_date r)) w1)))).
Proof.
  intros Hc Hcache Hdate w1 Hl. subst w1.
  rewrite (addEntry_success _ _ _ _ Hc) in *. simpl in *.
  repeat split.
  rewrite fetchEntries_failure with (err := err).
  - simpl. rewrite (or_selected_some _ _ Hdate).
    apply cached_is_listed.
    + apply cacheEntryLocally_cached. exact Hcache.
    + apply as_cached_date.
  - simpl. rewrite (or_selected_some _ _ Hdate). exact Hl.
Qed.

(** X5. An entry queued offline shows up only through the cache. For a
    draft whose macro values are numbers (none is [NaN]): when the remote
    create fails, the entries of the store are as before; if the
    list call for the date of the draft then fails too, [fetchEntries]
    lists the queued entry. That entry has the name and the date of the
    draft, the creation timestamp made from the first clock reading, the
    identifier made on the device (the second clock reading on web, the
    next rowid on SQLite), the optional strings of the draft ([NULL] for
    an empty one on SQLite), and the four macro values of the draft as the
    backend keeps them: unchanged on SQLite, through JSON on web, where a
    value that is not finite is kept as [null]. *)
Theorem addEntry_offline_then_listed_offline env entry w err err' :
  api_create env (requests w) entry = Err err ->
  (is_a_number (Draft.calories entry) && is_a_number (Draft.protein entry)
   && is_a_number (Draft.carbs entry) && is_a_number (Draft.fats entry) = true) ->
  cache w <> NoCache ->
  Draft.entry_date entry <> "" ->
  let w1 := world_after (addEntry env entry w) in
  api_list env (requests w1) (Draft.entry_date entry) = Err err' ->
  let q := queued_entry env (cache w) (clock_reads w) entry in
  entries (store w1) = entries (store w) /\
  In q (entries (store (world_after
          (fetchEntries env (Some (Draft.entry_date entry)) w1)))) /\
  food_name q = Draft.food_name entry /\
  entry_date q = Draft.entry_date entry /\
  created_at q = toISOString env (wall_clock env (clock_reads w)) /\
  id q = match cache w with
         | SqliteCache db => next_rowid db
         | _ => wall_clock env (S (clock_reads w))
         end /\
  (serving_size q, image_url q) =
    match cache w with
    | SqliteCache _ =>
        (or_null (Draft.serving_size entry), or_null (Draft.image_url entry))
    | _ => (Draft.serving_size entry, Draft.image_url entry)
    end /\
  (calories q, protein q, carbs q, fats q) =
    (kept_number (cache w) (Draft.calories entry),
     kept_number (cache w) (Draft.protein entry),
     kept_number (cache w) (Draft.carbs entry),
     kept_number (cache w) (Draft.fats entry)).
Proof.
  intros Hc _ Hcache Hdate w1 Hl q. subst w1.
  rewrite (addEntry_failure _ _ _ _ Hc) in *. simpl in *.
  split; [reflexivity|]. split.
  - rewrite fetchEntries_failure with (err := err').
    + simpl. rewrite (or_selected_some _ _ Hdate).
      apply cached_is_listed.
      * subst q. unfold queued_entry.
        destruct (cache w) as [[items]|db|]; [| |contradiction]; simpl.
        -- rewrite map_app. apply in_or_app. right. left. reflexivity.
        -- apply in_map_iff. eexists. split; [|apply upsert_row_in]. reflexivity.
      * subst q. unfold queued_entry. destruct (cache w); reflexivity.
    + simpl. rewrite (or_selected_some _ _ Hdate). exact Hl.
  - subst q. unfold queued_entry. destruct (cache w); repeat split.
Qed.

(** X6. A deleted entry comes back from the cache. After a successful
    [deleteEntry] the store holds no entry of that identifier; but if the
    entry was cached and the list call for its date then fails,
    [fetchEntries] lists it again. *)
Theorem deleted_entry_listed_again_offline env w e err :
  api_delete env (requests w) (id e) = Ok tt ->
  In e (cache_entries (cache w)) ->
  entry_date e <> "" ->
  let w1 := world_after (deleteEntry env (id e) w) in
  api_list env (requests w1) (entry_date e) = Err err ->
  (forall x, In x (entries (store w1)) -> id x <> id e) /\
  In e (entries (store (world_after (fetchEntries env (Some (entry_date e)) w1)))).
Proof.
  intros Hd Hin Hdate w1 Hl. subst w1.
  rewrite deleteEntry_run in *. rewrite Hd in *.
  rewrite fetchSummary_run in *. simpl in *. split.
  - intros x Hx. apply filter_In in Hx. destruct Hx as [_ Hx].
    apply negb_true_iff in Hx. apply Z.eqb_neq. exact Hx.
  - rewrite fetchEntries_failure with (err := err).
    + simpl. rewrite (or_selected_some _ _ Hdate).
      apply cached_is_listed; [exact Hin|reflexivity].
    + simpl. rewrite (or_selected_some _ _ Hdate). exact Hl.
Qed.

(** X7. What a successful fetch returned is there offline. After a
    [fetchEntries] that succeeded with a list of distinct identifiers,
    every returned entry is in the cache, and a later [fetchEntries] for
    the date of such an entry whose list call fails lists it. *)
Theorem fetched_entries_listed_offline env date w resp e err :
  api_list env (requests w) (or_selected date (store w)) = Ok resp ->
  NoDup (map id resp) ->
  cache w <> NoCache ->
  In e resp ->
  entry_date e <> "" ->
  let w1 := world_after (fetchEntries env date w) in
  api_list env (requests w1) (entry_date e) = Err err ->
  In (as_cached (cache w) e) (cache_entries (cache w1)) /\
  In (as_cached (cache w) e)
     (entries (store (world_after (fetchEntries env (Some (entry_date e)) w1)))).
Proof.
  intros Hl Hnd Hcache He Hdate w1 Hl1. subst w1.
  rewrite (fetchEntries_success _ _ _ _ Hl) in *. simpl in *.
  assert (Hin : In (as_cached (cache w) e)
                  (cache_entries
                     (fold_left (fun c e => cacheEntryLocally_cache e c) resp (cache w)))).
  { destruct (cache w) as [[items]|db|]; [| |contradiction].
    - rewrite cache_fold_web. simpl. rewrite cache_fold_web_read.
      destruct (upsert_fold_in _ _ id id json_entry
                  (fun e l => web_upsert (json_entry e) l)
                  (fun _ => eq_refl) json_upsert_keeps json_upsert_in
                  resp (map json_entry items) e He)
        as (e' & He' & Hid & Hin').
      rewrite (NoDup_map_eq id resp e e' Hnd He He' (eq_sym Hid)). exact Hin'.
    - rewrite cache_fold_sqlite. simpl.
      destruct (upsert_fold_in _ _ (fun r => id (row_entry r)) id synced_row
                  (fun e l => upsert_row (synced_row e) l)
                  (fun _ => eq_refl)
                  (fun e0 l x Hx Hne => upsert_row_keeps (synced_row e0) l x Hx Hne)
                  (fun e0 l => upsert_row_in (synced_row e0) l)
                  resp (rows db) e He)
        as (e' & He' & Hid & Hin').
      rewrite (NoDup_map_eq id resp e e' Hnd He He' (eq_sym Hid)).
      apply in_map_iff. exists (synced_row e'). split; [reflexivity|exact Hin']. }
  split; [exact Hin|].
  rewrite fetchEntries_failure with (err := err).
  - simpl. rewrite (or_selected_some _ _ Hdate).
    apply cached_is_listed; [exact Hin|apply as_cached_date].
  - simpl. rewrite (or_selected_some _ _ Hdate). exact Hl1.
Qed.

(** ** The sync pass as a whole *)

(** X8. [syncOfflineEntries] never rejects, whatever the remote does: it
    sends one create per row it takes for unsynced, in cache order, then
    always the list and the summary calls for the selected date; it does
    not read the clock, leaves the selected date alone, ends with the
    loading flag cleared, a summary in the store, and as entries either
    the remote list or the cached entries of the selected date. *)
Theorem syncOfflineEntries_never_rejects env w :
  let w' := world_after (syncOfflineEntries env w) in
  let sel := selectedDate (store w) in
  let sent_by_loop := requests w ++ map post_of (select_unsynced (cache w)) in
  outcome (syncOfflineEntries env w) = Ok tt /\
  requests w' = sent_by_loop ++ [GetEntries sel; GetSummary sel] /\
  clock_reads w' = clock_reads w /\
  selectedDate (store w') = sel /\
  isLoading (store w') = false /\
  summary (store w') <> None /\
  entries (store w') =
    match api_list env sent_by_loop sel with
    | Ok resp => resp
    | Err _ => getCachedEntries_cache env sel
                 (cache (world_after (sync_loop env (select_unsynced (cache w)) w)))
    end.
Proof.
  simpl. rewrite syncOfflineEntries_run, fetchSummary_run.
  destruct (sync_loop_frame env (select_unsynced (cache w)) w) as (_ & Hreq & Hst & Hclk).
  set (w1 := world_after (sync_loop env (select_unsynced (cache w)) w)) in *.
  assert (Hsel : or_selected None (store w1) = selectedDate (store w))
    by (rewrite Hst; reflexivity).
  destruct (api_list env (requests w1) (or_selected None (store w1))) as [resp|err] eqn:E.
  - rewrite (fetchEntries_success _ _ _ _ E). simpl.
    rewrite Hsel, Hreq, Hst, Hclk in *. rewrite E.
    rewrite <- !app_assoc. simpl. repeat split. discriminate.
  - rewrite (fetchEntries_failure _ _ _ _ E). simpl.
    rewrite Hsel, Hreq, Hst, Hclk in *. rewrite E.
    rewrite <- !app_assoc. simpl. repeat split. discriminate.
Qed.

(** After a refresh that succeeded, no unsynced row of a well-formed
    table has a rowid of the list: the refresh wrote the listed entry over
    it, synced. *)
Lemma fetchEntries_unsynced_not_listed env date w db resp e :
  cache w = SqliteCache db ->
  table_ok db ->
  api_list env (requests w) (or_selected date (store w)) = Ok resp ->
  In e (select_unsynced (cache (world_after (fetchEntries env date w)))) ->
  ~ In (id e) (map id resp).
Proof.
  intros Hc Hok H Hin Hid.
  assert (Hok' : cache_ok (cache (world_after (fetchEntries env date w))))
    by (apply fetchEntries_ok; rewrite Hc; exact Hok).
  rewrite (fetchEntries_success _ _ _ _ H) in Hin, Hok'. simpl in Hin, Hok'.
  rewrite Hc, cache_fold_sqlite in Hin, Hok'.
  unfold select_unsynced in Hin. simpl in Hin.
  apply in_map_iff in Hin. destruct Hin as (r & Hr & Hrin).
  apply filter_In in Hrin. destruct Hrin as [Hrin Hs].
  apply in_map_iff in Hid. destruct Hid as (x & Hx & Hxin).
  destruct (upsert_fold_in _ _ (fun r => id (row_entry r)) id synced_row
              (fun e l => upsert_row (synced_row e) l)
              (fun _ => eq_refl)
              (fun e0 l x Hx Hne => upsert_row_keeps (synced_row e0) l x Hx Hne)
              (fun e0 l => upsert_row_in (synced_row e0) l)
              resp (rows db) x Hxin)
    as (x' & _ & Hidx & Hin').
  destruct Hok' as [Hsorted _]. simpl in Hsorted.
  assert (Heq : r = synced_row x').
  { apply (NoDup_map_eq rowid _ r (synced_row x') (sorted_unique _ Hsorted) Hrin Hin').
    unfold rowid. rewrite Hr. simpl. congruence. }
  subst r. discriminate Hs.
Qed.

(** X9. On SQLite a second pass retries exactly what failed and was not
    overwritten. After the whole of [syncOfflineEntries] on a well-formed
    table, the rows a next pass would take for unsynced are the rows of
    the queue whose create failed and whose rowid the list of the refresh
    does not hold, and no others: a failed row whose rowid is listed is
    overwritten by the refresh and not retried. *)
Theorem sqlite_pass_leaves_exactly_the_failed_rows env w db e :
  cache w = SqliteCache db ->
  table_ok db ->
  In e (select_unsynced (cache (world_after (syncOfflineEntries env w))))
  <->
  exists pre post err,
    select_unsynced (cache w) = pre ++ e :: post /\
    api_create env (requests w ++ map post_of pre) (sync_body e) = Err err /\
    (forall resp,
       api_list env (requests w ++ map post_of (select_unsynced (cache w)))
         (selectedDate (store w)) = Ok resp ->
       ~ In (id e) (map id resp)).
Proof.
  intros Hc Hok.
  assert (Hu : ids_unique (cache w)).
  { apply (cache_ok_unique (cache w)) with (t := db); [|exact Hc].
    rewrite Hc. exact Hok. }
  split.
  - intros Hin.
    rewrite syncOfflineEntries_run, fetchSummary_run in Hin. simpl in Hin.
    set (w1 := world_after (sync_loop env (select_unsynced (cache w)) w)) in *.
    destruct (sync_loop_frame env (select_unsynced (cache w)) w) as (_ & Hreq & Hst & _).
    fold w1 in Hreq, Hst.
    destruct (sync_loop_only_marks env (select_unsynced (cache w)) w db Hc)
      as (db1 & Hc1 & Hmono).
    fold w1 in Hc1.
    assert (Hok1 : table_ok db1).
    { pose proof (sync_loop_ok env (select_unsynced (cache w)) w) as H.
      fold w1 in H. rewrite Hc, Hc1 in H. apply H. exact Hok. }
    pose proof (fetchEntries_unsynced_from env None w1 db1 e Hc1 Hin) as Hin1.
    assert (He : In e (select_unsynced (cache w))).
    { rewrite Hc1 in Hin1. rewrite Hc. unfold select_unsynced in *. simpl in *.
      apply in_map_iff in Hin1. destruct Hin1 as (r & Hr & Hrin).
      apply filter_In in Hrin. destruct Hrin as [Hrin Hs].
      apply in_map_iff. exists r. split; [exact Hr|].
      apply filter_In. split; [|exact Hs].
      apply Hmono; [exact Hrin|]. apply negb_true_iff. exact Hs. }
    apply in_split in He. destruct He as (pre & post & Hsplit).
    exists pre, post.
    destruct (api_create env (requests w ++ map post_of pre) (sync_body e))
      as [response|err] eqn:Hx.
    + exfalso.
      apply (sync_loop_succeeded_row_marked env w db pre e post response Hc Hu Hsplit Hx).
      exact Hin1.
    + exists err. split; [exact Hsplit|]. split; [reflexivity|].
      intros resp Hl.
      apply (fetchEntries_unsynced_not_listed env None w1 db1 resp e Hc1 Hok1);
        [|exact Hin].
      simpl. rewrite Hreq, Hst. exact Hl.
  - intros (pre & post & err & Hsplit & Hx & Hfresh).
    apply (syncOfflineEntries_failed_row_stays env w pre e post err); assumption.
Qed.

(** * The auth store *)

Lemma auth_through_api_run {A} env (c : Auth.Call)
    (answer : list Auth.Request -> Auth.Request -> Auth.result A) w :
  Auth.through_api env c answer w =
  let request := Auth.mkRequest c (Auth.truthy (Auth.auth_token w)) in
  match answer (Auth.requests w) request with
  | Auth.Ok a =>
      (Auth.Ok a,
       Auth.mkWorld (Auth.state w) (Auth.auth_token w) (Auth.requests w ++ [request]))
  | Auth.Err e =>
      (Auth.Err (Auth.rejection env e),
       Auth.mkWorld (Auth.state w)
         (Auth.token_after_error env e (Auth.auth_token w))
         (Auth.requests w ++ [request]))
  end.
Proof.
  unfold Auth.through_api, Auth.bind, Auth.getItem, Auth.rejection,
    Auth.token_after_error, Auth.deleteItem, Auth.throw. simpl.
  destruct (answer (Auth.requests w)
              (Auth.mkRequest c (Auth.truthy (Auth.auth_token w)))) as [a|e].
  - reflexivity.
  - destruct (Auth.is_401 e); [|reflexivity].
    destruct (Auth.platform env); reflexivity.
Qed.

(** On mobile a 401 leaves no detail: what the call rejects with is the
    TypeError. *)
Lemma auth_rejection_detail env e :
  Auth.detail_of (Auth.rejection env e) =
  if Auth.is_401 e then
    match Auth.platform env with
    | Auth.Web => Auth.detail_of e
    | Auth.Mobile => None
    end
  else Auth.detail_of e.
Proof.
  unfold Auth.rejection. destruct (Auth.is_401 e); [|reflexivity].
  destruct (Auth.platform env); reflexivity.
Qed.

Lemma auth_login_run env email password w :
  Auth.login env email password w =
  let request := Auth.mkRequest (Auth.PostLogin email password)
                   (Auth.truthy (Auth.auth_token w)) in
  match Auth.api_login env (Auth.requests w) request with
  | Auth.Ok data =>
      (Auth.Ok tt,
       Auth.mkWorld (Auth.mkAuthState (Some (Auth.login_user data)) true false)
         (Some (Auth.access_token data)) (Auth.requests w ++ [request]))
  | Auth.Err e =>
      (Auth.Err (Auth.new_Error
                   (Auth.or_else (Auth.detail_of (Auth.rejection env e)) "Login failed")),
       Auth.mkWorld (Auth.state w)
         (Auth.token_after_error env e (Auth.auth_token w))
         (Auth.requests w ++ [request]))
  end.
Proof.
  unfold Auth.login, Auth.try_catch, Auth.bind. rewrite auth_through_api_run. simpl.
  destruct (Auth.api_login env (Auth.requests w)
              (Auth.mkRequest (Auth.PostLogin email password)
                 (Auth.truthy (Auth.auth_token w)))) as [data|e]; reflexivity.
Qed.

(** X11. [login] either signs in or changes nothing in the store. On
    success the token of the answer is stored and the state is the user,
    authenticated, not loading. On failure it rejects with a fresh [Error]
    and the state is untouched. The message is the [detail] of the
    response, or ['Login failed'] when there is none or it is empty, and
    the stored token is untouched, unless the answer is a 401: then, on
    web, the response interceptor removes the stored token (also when the
    state says authenticated) and the message is still the [detail]; on
    mobile the interceptor throws at [storage.deleteItem], the token stays
    and the message is ['Login failed'] whatever the [detail] was. *)
Theorem auth_login_outcomes env email password w :
  let request := Auth.mkRequest (Auth.PostLogin email password)
                   (Auth.truthy (Auth.auth_token w)) in
  let w' := Auth.world_after (Auth.login env email password w) in
  Auth.requests w' = Auth.requests w ++ [request] /\
  match Auth.api_login env (Auth.requests w) request with
  | Auth.Ok data =>
      Auth.outcome (Auth.login env email password w) = Auth.Ok tt /\
      Auth.state w' = Auth.mkAuthState (Some (Auth.login_user data)) true false /\
      Auth.auth_token w' = Some (Auth.access_token data)
  | Auth.Err e =>
      Auth.state w' = Auth.state w /\
      if Auth.is_401 e then
        match Auth.platform env with
        | Auth.Web =>
            Auth.outcome (Auth.login env email password w) =
              Auth.Err (Auth.new_Error (Auth.or_else (Auth.detail_of e) "Login failed")) /\
            Auth.auth_token w' = None
        | Auth.Mobile =>
            Auth.outcome (Auth.login env email password w) =
              Auth.Err (Auth.new_Error "Login failed") /\
            Auth.auth_token w' = Auth.auth_token w
        end
      else
        Auth.outcome (Auth.login env email password w) =
          Auth.Err (Auth.new_Error (Auth.or_else (Auth.detail_of e) "Login failed")) /\
        Auth.auth_token w' = Auth.auth_token w
  end.
Proof.
  simpl. rewrite auth_login_run. simpl.
  destruct (Auth.api_login env (Auth.requests w)
              (Auth.mkRequest (Auth.PostLogin email password)
                 (Auth.truthy (Auth.auth_token w)))) as [data|e]; simpl.
  - repeat split.
  - split; [reflexivity|]. split; [reflexivity|].
    rewrite auth_rejection_detail. unfold Auth.token_after_error.
    destruct (Auth.is_401 e); [|split; reflexivity].
    destruct (Auth.platform env); split; reflexivity.
Qed.

(** X12. [register] resolves only through a successful automatic [login].
    When the register call fails, it rejects and the state is untouched;
    the error it catches is the error of the call (on mobile, for a 401,
    the TypeError the interceptor threw), and the message is the [detail]
    of its response, else the message of the error, else ['Registration
    failed'] (an error whose own message holds ['Registration successful']
    is passed on as it is). When the register call succeeds and the login
    that follows fails, it rejects with the check-your-email message
    whatever the login error was, and the state is untouched. When both
    succeed it resolves, signed in. *)
Theorem auth_register_outcomes env email password name w :
  let r1 := Auth.mkRequest (Auth.PostRegister email password name)
              (Auth.truthy (Auth.auth_token w)) in
  let w' := Auth.world_after (Auth.register env email password name w) in
  match Auth.api_register env (Auth.requests w) r1 with
  | Auth.Err e =>
      let caught := Auth.rejection env e in
      Auth.outcome (Auth.register env email password name w) =
        Auth.Err
          (if negb (String.eqb (Auth.message caught) "")
              && Auth.includes "Registration successful" (Auth.message caught)
           then caught
           else Auth.new_Error
                  (Auth.or_else (Auth.detail_of caught)
                     (Auth.or_else (Some (Auth.message caught)) "Registration failed"))) /\
      (Auth.platform env = Auth.Web -> caught = e) /\
      Auth.state w' = Auth.state w /\
      Auth.requests w' = Auth.requests w ++ [r1]
  | Auth.Ok _ =>
      let r2 := Auth.mkRequest (Auth.PostLogin email password)
                  (Auth.truthy (Auth.auth_token w)) in
      Auth.requests w' = Auth.requests w ++ [r1; r2] /\
      match Auth.api_login env (Auth.requests w ++ [r1]) r2 with
      | Auth.Ok data =>
          Auth.outcome (Auth.register env email password name w) = Auth.Ok tt /\
          Auth.state w' = Auth.mkAuthState (Some (Auth.login_user data)) true false /\
          Auth.auth_token w' = Some (Auth.access_token data)
      | Auth.Err _ =>
          Auth.outcome (Auth.register env email password name w) =
            Auth.Err (Auth.new_Error Auth.confirm_email_message) /\
          Auth.state w' = Auth.state w
      end
  end.
Proof.
  simpl. unfold Auth.register, Auth.try_catch, Auth.bind.
  rewrite auth_through_api_run. simpl.
  destruct (Auth.api_register env (Auth.requests w)
              (Auth.mkRequest (Auth.PostRegister email password name)
                 (Auth.truthy (Auth.auth_token w)))) as [[]|e]; simpl.
  - rewrite auth_login_run. simpl.
    destruct (Auth.api_login env
                (Auth.requests w ++
                 [Auth.mkRequest (Auth.PostRegister email password name)
                    (Auth.truthy (Auth.auth_token w))])
                (Auth.mkRequest (Auth.PostLogin email password)
                   (Auth.truthy (Auth.auth_token w)))) as [data|e]; simpl.
    + rewrite <- app_assoc. repeat split.
    + rewrite <- app_assoc. repeat split.
  - assert (Hweb : Auth.platform env = Auth.Web -> Auth.rejection env e = e).
    { intros Hp. unfold Auth.rejection. rewrite Hp.
      destruct (Auth.is_401 e); reflexivity. }
    destruct (negb (String.eqb (Auth.message (Auth.rejection env e)) "")
              && Auth.includes "Registration successful"
                   (Auth.message (Auth.rejection env e)));
      simpl; (split; [reflexivity|]); (split; [exact Hweb|]);
      split; reflexivity.
Qed.

Lemma auth_checkAuth_run env w :
  Auth.checkAuth env w =
  match Auth.truthy (Auth.auth_token w) with
  | None =>
      (Auth.Ok tt,
       Auth.mkWorld (Auth.mkAuthState (Auth.user (Auth.state w)) false false)
         (Auth.auth_token w) (Auth.requests w))
  | Some t =>
      let request := Auth.mkRequest Auth.GetMe (Some t) in
      match Auth.api_me env (Auth.requests w) request with
      | Auth.Ok me =>
          (Auth.Ok tt,
           Auth.mkWorld (Auth.mkAuthState (Some me) true false)
             (Auth.auth_token w) (Auth.requests w ++ [request]))
      | Auth.Err _ =>
          match Auth.platform env with
          | Auth.Web =>
              (Auth.Ok tt,
               Auth.mkWorld (Auth.mkAuthState None false false) None
                 (Auth.requests w ++ [request]))
          | Auth.Mobile =>
              (Auth.Err (Auth.new_Error (Auth.not_a_function env)),
               Auth.mkWorld (Auth.state w) (Auth.auth_token w)
                 (Auth.requests w ++ [request]))
          end
      end
  end.
Proof.
  unfold Auth.checkAuth, Auth.try_catch, Auth.bind, Auth.getItem. simpl.
  destruct (Auth.truthy (Auth.auth_token w)) as [t|] eqn:Ht.
  - rewrite auth_through_api_run. simpl. rewrite Ht.
    destruct (Auth.api_me env (Auth.requests w) (Auth.mkRequest Auth.GetMe (Some t)))
      as [me|e]; simpl; [reflexivity|].
    unfold Auth.deleteItem, Auth.token_after_error. simpl.
    destruct (Auth.platform env); [reflexivity|].
    destruct (Auth.is_401 e); reflexivity.
  - reflexivity.
Qed.

(** X13. What [checkAuth] ends with. Without a stored token (none, or the
    empty string) it sends nothing, resolves, keeps the user of the state
    and flags it not authenticated and not loading. With a token it sends
    [GET /auth/me] with that token as bearer; when the remote accepts, it
    resolves with the user signed in, not loading, the token still
    stored. When the remote refuses, on web it resolves with the token
    removed and the state signed out, not loading; on mobile its handler
    throws at [storage.deleteItem]: it rejects with the TypeError, and the
    state (the loading flag with it) and the token stay as they were. So
    on web [checkAuth] never rejects and always clears the loading
    flag. *)
Theorem auth_checkAuth_outcomes env w :
  let w' := Auth.world_after (Auth.checkAuth env w) in
  match Auth.truthy (Auth.auth_token w) with
  | None =>
      Auth.outcome (Auth.checkAuth env w) = Auth.Ok tt /\
      Auth.requests w' = Auth.requests w /\
      Auth.auth_token w' = Auth.auth_token w /\
      Auth.state w' = Auth.mkAuthState (Auth.user (Auth.state w)) false false
  | Some t =>
      let request := Auth.mkRequest Auth.GetMe (Some t) in
      Auth.requests w' = Auth.requests w ++ [request] /\
      match Auth.api_me env (Auth.requests w) request with
      | Auth.Ok me =>
          Auth.outcome (Auth.checkAuth env w) = Auth.Ok tt /\
          Auth.state w' = Auth.mkAuthState (Some me) true false /\
          Auth.auth_token w' = Auth.auth_token w
      | Auth.Err _ =>
          match Auth.platform env with
          | Auth.Web =>
              Auth.outcome (Auth.checkAuth env w) = Auth.Ok tt /\
              Auth.state w' = Auth.mkAuthState None false false /\
              Auth.auth_token w' = None
          | Auth.Mobile =>
              Auth.outcome (Auth.checkAuth env w) =
                Auth.Err (Auth.new_Error (Auth.not_a_function env)) /\
              Auth.state w' = Auth.state w /\
              Auth.auth_token w' = Auth.auth_token w
          end
      end
  end /\
  (Auth.platform env = Auth.Web ->
   Auth.outcome (Auth.checkAuth env w) = Auth.Ok tt /\
   Auth.isLoading (Auth.state w') = false).
Proof.
  simpl. rewrite auth_checkAuth_run.
  destruct (Auth.truthy (Auth.auth_token w)) as [t|] eqn:Ht; simpl.
  - destruct (Auth.api_me env (Auth.requests w) (Auth.mkRequest Auth.GetMe (Some t)))
      as [me|e] eqn:Hme; simpl.
    + repeat split.
    + destruct (Auth.platform env); simpl.
      * repeat split.
      * split; [repeat split|]. intros H. discriminate H.
  - repeat split.
Qed.

Lemma auth_logout_run env w :
  Auth.logout env w =
  match Auth.platform env with
  | Auth.Web =>
      (Auth.Ok tt,
       Auth.mkWorld (Auth.mkAuthState None false (Auth.isLoading (Auth.state w)))
         None (Auth.requests w))
  | Auth.Mobile => (Auth.Err (Auth.new_Error (Auth.not_a_function env)), w)
  end.
Proof.
  unfold Auth.logout, Auth.bind, Auth.deleteItem, Auth.set.
  destruct (Auth.platform env); reflexivity.
Qed.

(** X14. On web, after [logout] nothing is left to check: the token is
    removed and the state is signed out without any request, and a
    [checkAuth] that follows sends no request either and leaves the state
    signed out, with no user and not loading. On mobile [logout] throws at
    [storage.deleteItem] before it touches the state: it rejects with the
    TypeError and the token, the state and the requests are as they
    were. *)
Theorem auth_logout_then_checkAuth env w :
  let w1 := Auth.world_after (Auth.logout env w) in
  let w2 := Auth.world_after (Auth.checkAuth env w1) in
  match Auth.platform env with
  | Auth.Web =>
      Auth.outcome (Auth.logout env w) = Auth.Ok tt /\
      Auth.auth_token w1 = None /\
      Auth.state w1 = Auth.mkAuthState None false (Auth.isLoading (Auth.state w)) /\
      Auth.requests w2 = Auth.requests w /\
      Auth.auth_token w2 = None /\
      Auth.state w2 = Auth.mkAuthState None false false
  | Auth.Mobile =>
      Auth.outcome (Auth.logout env w) =
        Auth.Err (Auth.new_Error (Auth.not_a_function env)) /\
      w1 = w
  end.
Proof.
  cbv zeta. rewrite auth_checkAuth_run, auth_logout_run.
  destruct (Auth.platform env); simpl; repeat split.
Qed.

(** X15. The token [login] stores is the one the next calls carry. After a
    successful [login] that returned a non-empty token, [checkAuth] sends
    [GET /auth/me] with that token as bearer, and signs in with the user
    the remote returns. When the remote refuses, on web [checkAuth] signs
    out and removes the token; on mobile it rejects with the TypeError of
    [storage.deleteItem] and the state stays signed in as [login] left
    it, with the token stored. When the token returned is the empty
    string, [checkAuth] sends nothing and turns the state to not
    authenticated. *)
Theorem auth_login_then_checkAuth env email password w data :
  Auth.api_login env (Auth.requests w)
    (Auth.mkRequest (Auth.PostLogin email password) (Auth.truthy (Auth.auth_token w)))
  = Auth.Ok data ->
  let w1 := Auth.world_after (Auth.login env email password w) in
  let w2 := Auth.world_after (Auth.checkAuth env w1) in
  let me_request := Auth.mkRequest Auth.GetMe (Some (Auth.access_token data)) in
  if String.eqb (Auth.access_token data) "" then
    Auth.requests w2 = Auth.requests w1 /\
    Auth.isAuthenticated (Auth.state w1) = true /\
    Auth.isAuthenticated (Auth.state w2) = false
  else
    Auth.requests w2 = Auth.requests w1 ++ [me_request] /\
    match Auth.api_me env (Auth.requests w1) me_request with
    | Auth.Ok me =>
        Auth.outcome (Auth.checkAuth env w1) = Auth.Ok tt /\
        Auth.state w2 = Auth.mkAuthState (Some me) true false /\
        Auth.auth_token w2 = Some (Auth.access_token data)
    | Auth.Err _ =>
        match Auth.platform env with
        | Auth.Web =>
            Auth.outcome (Auth.checkAuth env w1) = Auth.Ok tt /\
            Auth.state w2 = Auth.mkAuthState None false false /\
            Auth.auth_token w2 = None
        | Auth.Mobile =>
            Auth.outcome (Auth.checkAuth env w1) =
              Auth.Err (Auth.new_Error (Auth.not_a_function env)) /\
            Auth.state w2 = Auth.mkAuthState (Some (Auth.login_user data)) true false /\
            Auth.auth_token w2 = Some (Auth.access_token data)
        end
    end.
Proof.
  intros H. cbv zeta. rewrite auth_checkAuth_run, auth_login_run. cbv zeta.
  rewrite H. simpl.
  destruct (String.eqb (Auth.access_token data) "") eqn:E; simpl.
  - repeat split.
  - destruct (Auth.api_me env
                (Auth.requests w ++
                 [Auth.mkRequest (Auth.PostLogin email password)
                    (Auth.truthy (Auth.auth_token w))])
                (Auth.mkRequest Auth.GetMe (Some (Auth.access_token data))));
      simpl; [repeat split|].
    destruct (Auth.platform env); simpl; repeat split.
Qed.

(** * The food entry screen *)

(** ** The name and the type of the upload *)

Lemma split_slash_nonempty s : Screen.split_slash s <> [].
Proof.
  destruct s as [|c rest]; simpl; [discriminate|].
  destruct (Ascii.eqb c "/"); [discriminate|].
  destruct (Screen.split_slash rest); discriminate.
Qed.

Lemma split_slash_join s : String.concat "/" (Screen.split_slash s) = s.
Proof.
  induction s as [|c rest IH]; simpl; [reflexivity|].
  destruct (Ascii.eqb_spec c "/") as [->|Hc].
  - pose proof (split_slash_nonempty rest) as Hne.
    destruct (Screen.split_slash rest) as [|x xs]; [contradiction|].
    simpl. simpl in IH. rewrite IH. reflexivity.
  - pose proof (split_slash_nonempty rest) as Hne.
    destruct (Screen.split_slash rest) as [|x xs]; [contradiction|].
    simpl. destruct xs as [|y ys]; simpl in *; rewrite IH; reflexivity.
Qed.

Lemma split_slash_segments s :
  Forall (fun x => Screen.no_slash x = true) (Screen.split_slash s).
Proof.
  induction s as [|c rest IH]; simpl.
  - constructor; [reflexivity|constructor].
  - destruct (Ascii.eqb c "/") eqn:Hc.
    + constructor; [reflexivity|exact IH].
    + pose proof (split_slash_nonempty rest) as Hne.
      destruct (Screen.split_slash rest) as [|x xs]; [contradiction|].
      inversion IH; subst. constructor; [|assumption].
      simpl. rewrite Hc. simpl. assumption.
Qed.

Lemma append_assoc (a b c : string) :
  String.append (String.append a b) c = String.append a (String.append b c).
Proof. induction a as [|x a IH]; simpl; [reflexivity|rewrite IH; reflexivity]. Qed.

Lemma append_empty_r (a : string) : String.append a "" = a.
Proof. induction a as [|x a IH]; simpl; [reflexivity|rewrite IH; reflexivity]. Qed.

Lemma concat_last sep l x :
  exists pre,
    String.concat sep (l ++ [x]) = String.append pre x /\
    (pre = "" \/ exists pre', pre = String.append pre' sep).
Proof.
  induction l as [|y l IH]; simpl.
  - exists EmptyString. split; [reflexivity|left; reflexivity].
  - destruct IH as (pre & IH & Hpre).
    destruct (l ++ [x]) as [|z zs] eqn:E.
    + destruct l; discriminate E.
    + exists (String.append y (String.append sep pre)). split.
      * rewrite IH. rewrite !append_assoc. reflexivity.
      * right. destruct Hpre as [->|(pre' & ->)].
        -- exists y. rewrite append_empty_r. reflexivity.
        -- exists (String.append y (String.append sep pre')).
           rewrite !append_assoc. reflexivity.
Qed.

Lemma pop_split s :
  exists pre x,
    Screen.pop (Screen.split_slash s) = Some x /\
    s = String.append pre x /\ Screen.no_slash x = true /\
    (pre = "" \/ exists pre', pre = String.append pre' "/").
Proof.
  pose proof (split_slash_join s) as Hj.
  pose proof (split_slash_segments s) as Hf.
  pose proof (split_slash_nonempty s) as Hne.
  unfold Screen.pop.
  rewrite <- (rev_involutive (Screen.split_slash s)) in Hj, Hf.
  destruct (rev (Screen.split_slash s)) as [|x t] eqn:E.
  - exfalso. apply Hne. rewrite <- (rev_involutive (Screen.split_slash s)), E. reflexivity.
  - simpl in Hj, Hf. destruct (concat_last "/" (rev t) x) as (pre & Hp & Hpre).
    exists pre, x. split; [reflexivity|]. split; [|split].
    + rewrite <- Hj. exact Hp.
    + rewrite Forall_forall in Hf. apply Hf. apply in_or_app. right. left. reflexivity.
    + exact Hpre.
Qed.

(** X16. The name [processImage] gives the upload is never empty and has
    no slash in it: it is what follows the last slash of the uri (the
    whole uri when it has none), and ['photo.jpg'] exactly when that is
    empty. Splitting a uri at its slashes and joining the pieces with
    slashes gives the uri back. *)
Theorem upload_name_is_last_segment picked :
  String.concat "/" (Screen.split_slash picked) = picked /\
  Screen.upload_name picked <> "" /\
  Screen.no_slash (Screen.upload_name picked) = true /\
  exists pre last,
    picked = String.append pre last /\
    Screen.no_slash last = true /\
    (pre = "" \/ exists pre', pre = String.append pre' "/") /\
    Screen.upload_name picked = (if String.eqb last "" then "photo.jpg" else last).
Proof.
  split; [apply split_slash_join|].
  destruct (pop_split picked) as (pre & x & Hpop & Hs & Hx & Hpre).
  unfold Screen.upload_name. rewrite Hpop. unfold Screen.or_default.
  destruct (String.eqb_spec x "") as [->|Hne].
  - split; [discriminate|]. split; [reflexivity|].
    exists pre, "". repeat split; auto.
  - split; [exact Hne|]. split; [exact Hx|].
    exists pre, x. repeat split; auto.
    destruct (String.eqb_spec x ""); [contradiction|reflexivity].
Qed.

(** ** The type *)

Lemma all_word_app a b :
  Screen.all_word (String.append a b) = Screen.all_word a && Screen.all_word b.
Proof.
  induction a as [|c a IH]; simpl; [reflexivity|].
  rewrite IH. apply andb_assoc.
Qed.

Lemma exec_extension_sound s ext :
  Screen.exec_extension s = Some ext ->
  ext <> "" /\ Screen.all_word ext = true /\
  exists stem, s = String.append stem (String "." ext).
Proof.
  induction s as [|c rest IH]; simpl; [discriminate|].
  destruct (Ascii.eqb_spec c ".") as [->|Hc]; simpl.
  - destruct (String.eqb_spec rest "") as [Hr|Hr]; simpl.
    + intros H. destruct (IH H) as (H1 & H2 & stem & H3).
      split; [exact H1|]. split; [exact H2|].
      exists (String "." stem). simpl. rewrite H3. reflexivity.
    + destruct (Screen.all_word rest) eqn:Hw.
      * intros H. injection H as <-. split; [exact Hr|]. split; [exact Hw|].
        exists "". reflexivity.
      * intros H. destruct (IH H) as (H1 & H2 & stem & H3).
        split; [exact H1|]. split; [exact H2|].
        exists (String "." stem). simpl. rewrite H3. reflexivity.
  - intros H. destruct (IH H) as (H1 & H2 & stem & H3).
    split; [exact H1|]. split; [exact H2|].
    exists (String c stem). simpl. rewrite H3. reflexivity.
Qed.

Lemma exec_extension_complete stem ext :
  ext <> "" -> Screen.all_word ext = true ->
  Screen.exec_extension (String.append stem (String "." ext)) = Some ext.
Proof.
  intros Hne Hw. induction stem as [|c stem IH]; simpl.
  - destruct (String.eqb_spec ext ""); [contradiction|]. rewrite Hw. reflexivity.
  - destruct (Ascii.eqb c "."); simpl; [|exact IH].
    destruct (String.eqb (String.append stem (String "." ext)) ""); simpl; [exact IH|].
    rewrite all_word_app. simpl. rewrite andb_false_r. exact IH.
Qed.

(** X17. The type of the upload is ['image/'] followed by the extension of
    the name, when the name ends in a dot followed by one or more word
    characters (letters, digits, underscore), and ['image/jpeg'] for any
    other name: no dot, a dot at the very end, or something else than
    word characters after the last dot. *)
Theorem upload_type_follows_extension :
  (forall stem extension,
     extension <> "" -> Screen.all_word extension = true ->
     Screen.upload_type (String.append stem (String "." extension))
     = String.append "image/" extension) /\
  (forall filename,
     (forall stem extension,
        filename = String.append stem (String "." extension) ->
        extension = "" \/ Screen.all_word extension = false) ->
     Screen.upload_type filename = "image/jpeg") /\
  (forall filename,
     exists extension,
       Screen.upload_type filename = String.append "image/" extension /\
       extension <> "" /\ Screen.all_word extension = true).
Proof.
  split; [|split].
  - intros stem extension Hne Hw. unfold Screen.upload_type.
    rewrite (exec_extension_complete _ _ Hne Hw). reflexivity.
  - intros filename H. unfold Screen.upload_type.
    destruct (Screen.exec_extension filename) as [ext|] eqn:E; [|reflexivity].
    exfalso. destruct (exec_extension_sound _ _ E) as (H1 & H2 & stem & H3).
    destruct (H stem ext H3) as [H4|H4]; congruence.
  - intros filename. unfold Screen.upload_type.
    destruct (Screen.exec_extension filename) as [ext|] eqn:E.
    + destruct (exec_extension_sound _ _ E) as (H1 & H2 & _).
      exists ext. repeat split; assumption.
    + exists "jpeg". repeat split. discriminate.
Qed.

(** ** Recognising a photo *)

(** X18. [processImage] always ends with the photo shown and the spinner
    off, whatever the recognition call does: the form holds the picked uri
    as image and is not processing; exactly one upload was sent, under the
    name and type computed from the uri; the food store is not touched.
    When the call fails, the text fields are as they were and one alert,
    ['Recognition Failed'], is raised. When it succeeds, no field is left
    as it was: the serving size is the recognised one or ['1 serving'],
    never empty, and a missing number gives an empty field. *)
Theorem processImage_always_settles h picked s :
  let s' := Screen.processImage h picked s in
  let upload := Screen.mkUpload picked (Screen.upload_name picked)
                  (Screen.upload_type (Screen.upload_name picked)) in
  Screen.image (Screen.form s') = Some picked /\
  Screen.isProcessing (Screen.form s') = false /\
  Screen.uploads s' = Screen.uploads s ++ [upload] /\
  Screen.food s' = Screen.food s /\
  match Screen.recognize h (Screen.uploads s) upload with
  | Err _ =>
      Screen.alerts s' =
        Screen.alerts s ++
        [("Recognition Failed",
          "Could not recognize food. Please fill in the details manually.")] /\
      (Screen.foodName (Screen.form s'), Screen.calories (Screen.form s'),
       Screen.protein (Screen.form s'), Screen.carbs (Screen.form s'),
       Screen.fats (Screen.form s'), Screen.servingSize (Screen.form s')) =
      (Screen.foodName (Screen.form s), Screen.calories (Screen.form s),
       Screen.protein (Screen.form s), Screen.carbs (Screen.form s),
       Screen.fats (Screen.form s), Screen.servingSize (Screen.form s))
  | Ok found =>
      Screen.servingSize (Screen.form s') <> "" /\
      Screen.servingSize (Screen.form s') =
        Screen.or_default (Screen.serving_size found) "1 serving" /\
      Screen.foodName (Screen.form s') = Screen.or_default (Screen.food_name found) "" /\
      (Screen.fd_calories found = None -> Screen.calories (Screen.form s') = "") /\
      Screen.alerts s' =
        Screen.alerts s ++
        match Screen.note found with
        | Some text => if String.eqb text "" then [] else [("Recognition", text)]
        | None => []
        end
  end.
Proof.
  cbv zeta. unfold Screen.processImage. simpl.
  destruct (Screen.recognize h (Screen.uploads s)
              (Screen.mkUpload picked (Screen.upload_name picked)
                 (Screen.upload_type (Screen.upload_name picked)))) as [found|err].
  - assert (Hserv : Screen.or_default (Screen.serving_size found) "1 serving" <> "").
    { unfold Screen.or_default. destruct (Screen.serving_size found) as [v|]; [|discriminate].
      destruct (String.eqb_spec v ""); [discriminate|assumption]. }
    destruct (Screen.note found) as [text|]; [destruct (String.eqb text "")|]; simpl;
      repeat split; try exact Hserv; try (rewrite app_nil_r; reflexivity);
      try (intros ->; reflexivity).
  - simpl. repeat split.
Qed.

(** ** Saving the form *)

Lemma or_zero_not_nan x : PrimFloat.is_nan (Screen.or_zero x) = false.
Proof.
  unfold Screen.or_zero.
  destruct (PrimFloat.eqb x 0) eqn:E0; simpl; [reflexivity|].
  destruct (PrimFloat.is_nan x) eqn:En; [reflexivity|exact En].
Qed.

Lemma or_zero_is_a_number x : is_a_number (Number (Screen.or_zero x)) = true.
Proof. simpl. rewrite or_zero_not_nan. reflexivity. Qed.

Lemma or_undefined_or_null s : or_null (Screen.or_undefined s) = Screen.or_undefined s.
Proof.
  unfold Screen.or_undefined, or_null.
  destruct (String.eqb s "") eqn:E; [reflexivity|]. rewrite E. reflexivity.
Qed.

(** X19. With a name that is not blank, [handleSave] reads the clock once
    and sends the store one create; the draft it sends has the trimmed
    name, which is not empty, the day of the clock reading, four macros
    each of which is a number and none of which is NaN (a field that does
    not parse, or parses to zero, gives 0), and optional strings that are
    absent rather than empty, so that both backends would cache them
    unchanged. *)
Theorem handleSave_sends_clean_draft h s :
  Screen.trim h (Screen.foodName (Screen.form s)) <> "" ->
  let today := Screen.format_day h
                 (wall_clock (Screen.store_env h) (clock_reads (Screen.food s))) in
  let d := Screen.draft_of_form h (Screen.form s) today in
  (exists more,
     requests (Screen.food (Screen.handleSave h s)) =
     requests (Screen.food s) ++ PostEntry d :: more) /\
  Draft.food_name d <> "" /\
  Draft.entry_date d = today /\
  (is_a_number (Draft.calories d) = true /\
   is_a_number (Draft.protein d) = true /\
   is_a_number (Draft.carbs d) = true /\
   is_a_number (Draft.fats d) = true) /\
  Draft.serving_size d <> Some "" /\
  Draft.image_url d <> Some "" /\
  or_null (Draft.serving_size d) = Draft.serving_size d /\
  or_null (Draft.image_url d) = Draft.image_url d.
Proof.
  intros Hname today d. split; [|split; [exact Hname|split; [reflexivity|]]].
  - unfold Screen.handleSave.
    destruct (String.eqb_spec (Screen.trim h (Screen.foodName (Screen.form s))) "")
      as [E|_]; [contradiction|].
    unfold Screen.read_clock. fold today. fold d.
    set (w1 := mkWorld (store (Screen.food s)) (cache (Screen.food s))
                 (requests (Screen.food s)) (S (clock_reads (Screen.food s)))).
    destruct (api_create (Screen.store_env h) (requests w1) d) as [r|err] eqn:E.
    + rewrite (addEntry_success _ _ _ _ E). simpl.
      eexists. reflexivity.
    + rewrite (addEntry_failure _ _ _ _ E). simpl.
      exists []. reflexivity.
  - subst d. unfold Screen.draft_of_form. simpl.
    split; [repeat split; apply or_zero_is_a_number|].
    assert (Hu : forall x, Screen.or_undefined x <> Some "").
    { intros x. unfold Screen.or_undefined.
      destruct (String.eqb_spec x ""); [discriminate|]. congruence. }
    assert (Hi : match Screen.image (Screen.form s) with
                 | Some u => Screen.or_undefined u
                 | None => None
                 end <> Some "").
    { destruct (Screen.image (Screen.form s)); [apply Hu|discriminate]. }
    split; [apply Hu|]. split; [exact Hi|].
    split; [apply or_undefined_or_null|].
    destruct (Screen.image (Screen.form s)); [apply or_undefined_or_null|reflexivity].
Qed.

(** X20. The three ways [handleSave] ends. With a blank name it does
    nothing but raise the alert ['Please enter a food name']: the form, the
    uploads and the whole world of the store (requests, cache, entries,
    clock) are untouched. With a name and a remote create that fails, it
    raises one ['Error'] alert with the message of the error (or ['Failed
    to save entry'] when it has none), leaves every field of the form and
    the entries of the store as they were, and the cache holds one entry
    more than before: pressing save again on the same form queues the
    entry again. With a create that succeeds the fields are emptied, the
    alert is ['Success'] and the returned entry heads the entries of the
    store. *)
Theorem handleSave_outcomes h s :
  let env := Screen.store_env h in
  let today := Screen.format_day h (wall_clock env (clock_reads (Screen.food s))) in
  let d := Screen.draft_of_form h (Screen.form s) today in
  let s' := Screen.handleSave h s in
  if String.eqb (Screen.trim h (Screen.foodName (Screen.form s))) "" then
    s' = Screen.mkState (Screen.form s)
           (Screen.alerts s ++ [("Error", "Please enter a food name")])
           (Screen.uploads s) (Screen.food s)
  else
    match api_create env (requests (Screen.food s)) d with
    | Err error =>
        Screen.form s' = Screen.form s /\
        Screen.alerts s' =
          Screen.alerts s ++
          [("Error", Screen.or_default (Some (Screen.message_of h error))
                       "Failed to save entry")] /\
        entries (store (Screen.food s')) = entries (store (Screen.food s)) /\
        (cache (Screen.food s) <> NoCache ->
         Permutation
           (cache_entries (cache (Screen.food s')))
           (queued_entry env (cache (Screen.food s)) (S (clock_reads (Screen.food s))) d
            :: cache_entries (cache (Screen.food s))))
    | Ok r =>
        Screen.form s' = Screen.empty_form (Screen.form s) /\
        Screen.alerts s' = Screen.alerts s ++ [("Success", "Food entry added!")] /\
        entries (store (Screen.food s')) = r :: entries (store (Screen.food s))
    end.
Proof.
  intros env today d s'. subst s'. unfold Screen.handleSave.
  destruct (String.eqb (Screen.trim h (Screen.foodName (Screen.form s))) "");
    [reflexivity|].
  unfold Screen.read_clock. fold env. fold today. fold d.
  set (w1 := mkWorld (store (Screen.food s)) (cache (Screen.food s))
               (requests (Screen.food s)) (S (clock_reads (Screen.food s)))).
  change (requests (Screen.food s)) with (requests w1).
  destruct (api_create env (requests w1) d) as [r|err] eqn:E.
  - rewrite (addEntry_success _ _ _ _ E). simpl. repeat split.
  - rewrite (addEntry_failure _ _ _ _ E). simpl.
    split; [reflexivity|]. split; [reflexivity|]. split; [reflexivity|].
    intros Hcache. unfold queued_entry.
    destruct (cache (Screen.food s)) as [[items]|db|]; [| |contradiction]; simpl.
    + rewrite map_app, map_json_idem. simpl.
      apply Permutation_sym. apply Permutation_cons_append.
    + change (?x :: map row_entry (rows db))
        with (map row_entry
                (unsynced_row (next_rowid db)
                   (entryToCache (wall_clock env (S (S (clock_reads (Screen.food s))))) d
                      (toISOString env (wall_clock env (S (clock_reads (Screen.food s))))))
                 :: rows db)).
      apply Permutation_map. apply upsert_row_fresh. simpl.
      intros Hin. apply in_map_iff in Hin. destruct Hin as (r & Hr & Hrin).
      pose proof (next_rowid_fresh db r Hrin). lia.
Qed.

(** * The properties at work on the scenarios *)

(** X2 at work: the table with three queued rows, through a whole pass. *)
Lemma actions_keep_table_well_formed_witness :
  cache_ok (cache three_queued) /\
  cache_ok (cache (world_after (syncOfflineEntries second_retry_fails three_queued))).
Proof.
  assert (H : cache_ok (cache three_queued)).
  { change (cache three_queued) with (SqliteCache three_queued_table).
    split; simpl.
    - repeat (constructor; [|repeat (constructor; [unfold rowid; simpl; lia|])]);
        constructor.
    - repeat (constructor; [unfold rowid; simpl; lia|]). constructor. }
  split; [exact H|].
  exact (proj1 (proj2 (proj2 (proj2 (proj2 (proj2
           (actions_keep_table_well_formed second_retry_fails three_queued H))))))).
Defined.

(** X4 at work: oatmeal goes through as entry 7, then the remote is out of
    reach. *)
Lemma addEntry_online_then_listed_offline_witness :
  api_create accepts_then_fails_once (requests sqlite_start) oatmeal
  = Ok (server_entry 7 oatmeal) /\
  In (server_entry 7 oatmeal)
     (entries (store (world_after
        (fetchEntries accepts_then_fails_once (Some day)
           (world_after (addEntry accepts_then_fails_once oatmeal sqlite_start)))))).
Proof.
  split; [reflexivity|].
  assert (Hc : cache sqlite_start <> NoCache) by discriminate.
  assert (Hd : entry_date (server_entry 7 oatmeal) <> "") by discriminate.
  exact (proj2 (proj2 (proj2 (proj2
           (addEntry_online_then_listed_offline accepts_then_fails_once oatmeal
              sqlite_start (server_entry 7 oatmeal) NetworkError
              eq_refl Hc Hd eq_refl))))).
Defined.

(** X5 at work: oatmeal is queued offline, then listed from the cache. *)
Lemma addEntry_offline_then_listed_offline_witness :
  api_create offline (requests sqlite_start) oatmeal = Err NetworkError /\
  In (queued 1 oatmeal "2024-05-01T12:00:00.000Z")
     (entries (store (world_after
        (fetchEntries offline (Some day)
           (world_after (addEntry offline oatmeal sqlite_start)))))).
Proof.
  split; [reflexivity|].
  assert (Hc : cache sqlite_start <> NoCache) by discriminate.
  assert (Hd : Draft.entry_date oatmeal <> "") by discriminate.
  exact (proj1 (proj2
           (addEntry_offline_then_listed_offline offline oatmeal sqlite_start
              NetworkError NetworkError eq_refl eq_refl Hc Hd eq_refl))).
Defined.

(** X6 at work: entry 7 is deleted remotely, then listed from the cache. *)
Lemma deleted_entry_listed_again_offline_witness :
  api_delete accepts_then_fails_once (requests confirmed_sqlite) 7 = Ok tt /\
  entries (store (world_after (deleteEntry accepts_then_fails_once 7 confirmed_sqlite)))
  = [] /\
  In (server_entry 7 oatmeal)
     (entries (store (world_after
        (fetchEntries accepts_then_fails_once (Some day)
           (world_after (deleteEntry accepts_then_fails_once 7 confirmed_sqlite)))))).
Proof.
  split; [reflexivity|]. split; [reflexivity|].
  assert (Hin : In (server_entry 7 oatmeal) (cache_entries (cache confirmed_sqlite)))
    by (left; reflexivity).
  assert (Hd : entry_date (server_entry 7 oatmeal) <> "") by discriminate.
  exact (proj2
           (deleted_entry_listed_again_offline accepts_then_fails_once
              confirmed_sqlite (server_entry 7 oatmeal) NetworkError
              eq_refl Hin Hd eq_refl)).
Defined.

(** X7 at work: the two entries listed once are there when the remote is
    out of reach. *)
Lemma fetched_entries_listed_offline_witness :
  api_list listed_once (requests sqlite_start)
    (or_selected (Some day) (store sqlite_start)) = Ok two_listed /\
  In (server_entry 7 yogurt)
     (entries (store (world_after
        (fetchEntries listed_once (Some day)
           (world_after (fetchEntries listed_once (Some day) sqlite_start)))))).
Proof.
  split; [reflexivity|].
  assert (Hnd : NoDup (map id two_listed)).
  { repeat (constructor; [intros H; simpl in H; intuition discriminate|]). constructor. }
  assert (Hc : cache sqlite_start <> NoCache) by discriminate.
  assert (Hin : In (server_entry 7 yogurt) two_listed) by (left; reflexivity).
  assert (Hd : entry_date (server_entry 7 yogurt) <> "") by discriminate.
  exact (proj2
           (fetched_entries_listed_offline listed_once (Some day) sqlite_start
              two_listed (server_entry 7 yogurt) NetworkError
              eq_refl Hnd Hc Hin Hd eq_refl)).
Defined.

(** X9 at work: of three queued rows the second fails, and the server
    numbers what it accepts from 40; after the pass row 2 is the one a
    next pass will take. *)
Lemma sqlite_pass_leaves_exactly_the_failed_rows_witness :
  cache three_queued = SqliteCache three_queued_table /\
  table_ok three_queued_table /\
  select_unsynced
    (cache (world_after (syncOfflineEntries second_retry_fails three_queued)))
  = [queued 2 yogurt "2024-05-01T12:00:04.000Z"] /\
  exists pre post err,
    select_unsynced (cache three_queued)
    = pre ++ queued 2 yogurt "2024-05-01T12:00:04.000Z" :: post /\
    api_create second_retry_fails (requests three_queued ++ map post_of pre)
      (sync_body (queued 2 yogurt "2024-05-01T12:00:04.000Z")) = Err err /\
    (forall resp,
       api_list second_retry_fails
         (requests three_queued ++ map post_of (select_unsynced (cache three_queued)))
         (selectedDate (store three_queued)) = Ok resp ->
       ~ In (id (queued 2 yogurt "2024-05-01T12:00:04.000Z")) (map id resp)).
Proof.
  assert (Hok : table_ok three_queued_table).
  { split; simpl.
    - repeat (constructor; [|repeat (constructor; [unfold rowid; simpl; lia|])]);
        constructor.
    - repeat (constructor; [unfold rowid; simpl; lia|]). constructor. }
  split; [reflexivity|]. split; [exact Hok|]. split; [vm_compute; reflexivity|].
  apply (proj1 (sqlite_pass_leaves_exactly_the_failed_rows second_retry_fails
                  three_queued three_queued_table
                  (queued 2 yogurt "2024-05-01T12:00:04.000Z") eq_refl Hok)).
  vm_compute. left. reflexivity.
Defined.


(** X15 at work: Ada signs in on web, then the session is checked; and
    Ada signs in on mobile with a token the remote no longer knows when
    the session is checked. *)
Lemma auth_login_then_checkAuth_witness :
  Auth.api_login (auth_remote Auth.Web) (Auth.requests signed_out)
    (Auth.mkRequest (Auth.PostLogin "ada@example.org" "secret")
       (Auth.truthy (Auth.auth_token signed_out)))
  = Auth.Ok (Auth.mkLoginData "token-1" ada) /\
  Auth.requests
    (Auth.world_after
       (Auth.checkAuth (auth_remote Auth.Web)
          (Auth.world_after
             (Auth.login (auth_remote Auth.Web) "ada@example.org" "secret" signed_out))))
  = [Auth.mkRequest (Auth.PostLogin "ada@example.org" "secret") None;
     Auth.mkRequest Auth.GetMe (Some "token-1")] /\
  Auth.api_login (expired_remote Auth.Mobile) (Auth.requests signed_out)
    (Auth.mkRequest (Auth.PostLogin "ada@example.org" "secret")
       (Auth.truthy (Auth.auth_token signed_out)))
  = Auth.Ok (Auth.mkLoginData "token-0" ada) /\
  Auth.outcome
    (Auth.checkAuth (expired_remote Auth.Mobile)
       (Auth.world_after
          (Auth.login (expired_remote Auth.Mobile) "ada@example.org" "secret"
             signed_out)))
  = Auth.Err (Auth.new_Error "storage.deleteItem is not a function") /\
  Auth.auth_token
    (Auth.world_after
       (Auth.checkAuth (expired_remote Auth.Mobile)
          (Auth.world_after
             (Auth.login (expired_remote Auth.Mobile) "ada@example.org" "secret"
                signed_out))))
  = Some "token-0".
Proof.
  split; [reflexivity|]. split.
  { exact (proj1
             (auth_login_then_checkAuth (auth_remote Auth.Web) "ada@example.org"
                "secret" signed_out (Auth.mkLoginData "token-1" ada) eq_refl)). }
  split; [reflexivity|].
  pose proof (auth_login_then_checkAuth (expired_remote Auth.Mobile)
                "ada@example.org" "secret" signed_out
                (Auth.mkLoginData "token-0" ada) eq_refl) as H.
  simpl in H. destruct H as (_ & H1 & _ & H3).
  split; [exact H1|exact H3].
Defined.

(** X19 at work: the form as typed, saved offline. The name is trimmed and
    the empty fats field gives 0. *)
Lemma handleSave_sends_clean_draft_witness :
  Screen.trim offline_host (Screen.foodName (Screen.form typed_screen)) <> "" /\
  exists more,
    requests (Screen.food (Screen.handleSave offline_host typed_screen)) =
    requests (Screen.food typed_screen) ++
    PostEntry (Draft.mk "oatmeal" 300%float 10%float 54%float 0%float
                 (Some "1 bowl") None day) :: more.
Proof.
  assert (Hn : Screen.trim offline_host (Screen.foodName (Screen.form typed_screen)) <> "")
    by (vm_compute; intros H; discriminate H).
  split; [exact Hn|].
  exact (proj1 (handleSave_sends_clean_draft offline_host typed_screen Hn)).
Defined.

(** The whole of that save: one alert, the form kept, one row queued. *)
Example save_offline_keeps_the_form :
  Screen.form (Screen.handleSave offline_host typed_screen) = typed_form /\
  Screen.alerts (Screen.handleSave offline_host typed_screen)
  = [("Error", "Network Error")] /\
  flags (Screen.food (Screen.handleSave offline_host typed_screen)) = [(1, false)] /\
  flags (Screen.food (Screen.handleSave offline_host
                        (Screen.handleSave offline_host typed_screen)))
  = [(1, false); (2, false)].
Proof. vm_compute. repeat split; reflexivity. Qed.

(** The fallback name has the extension [jpg]: a uri that ends in a slash
    is uploaded as ['photo.jpg'] of type ['image/jpg'], a name without
    extension as ['image/jpeg']. *)
Example upload_of_a_directory_uri :
  Screen.upload_name "file:///cache/" = "photo.jpg" /\
  Screen.upload_type (Screen.upload_name "file:///cache/") = "image/jpg" /\
  Screen.upload_name "file:///cache/IMG_0042.HEIC" = "IMG_0042.HEIC" /\
  Screen.upload_type "IMG_0042.HEIC" = "image/HEIC" /\
  Screen.upload_type "snapshot" = "image/jpeg" /\
  Screen.upload_type "archive.tar.gz" = "image/gz" /\
  Screen.upload_type "photo.jp-g" = "image/jpeg".
Proof. vm_compute. repeat split; reflexivity. Qed.

(** Signing up while the address is not confirmed: the register call is
    accepted, the login that follows is refused with a detail of its own,
    and what the caller gets is the check-your-email message; the failed
    login had no 401, the state is as before. *)
Example register_then_refused_login :
  Auth.register unconfirmed_remote "ada@example.org" "secret" "Ada" signed_out =
  (Auth.Err (Auth.new_Error Auth.confirm_email_message),
   Auth.mkWorld (Auth.mkAuthState None false true) None
     [Auth.mkRequest (Auth.PostRegister "ada@example.org" "secret" "Ada") None;
      Auth.mkRequest (Auth.PostLogin "ada@example.org" "secret") None]).
Proof. vm_compute. reflexivity. Qed.

(** On mobile the session cannot be ended: [logout] rejects at
    [storage.deleteItem], and Ada is still signed in with her token
    stored. *)
Example logout_on_mobile_keeps_the_session :
  Auth.state signed_in_on_mobile = Auth.mkAuthState (Some ada) true false /\
  Auth.auth_token signed_in_on_mobile = Some "token-1" /\
  Auth.logout (auth_remote Auth.Mobile) signed_in_on_mobile =
  (Auth.Err (Auth.new_Error "storage.deleteItem is not a function"),
   signed_in_on_mobile).
Proof. vm_compute. repeat split; reflexivity. Qed.

